(** * Robot API: shallow embedding of models.go, storage.go and handlers.go

    The in-memory [RobotStorage] maps robot ids to *pointers* to [Robot]
    records; [GetRobot] hands out the pointer itself, so every field write
    a handler performs on "its" robot is a write to the stored object.
    The embedding therefore keeps one heap object per id and turns each
    field write through the pointer into an update at that id.  Each robot
    is stored under its own [ID] (true for the seed data, and no handler
    writes [ID]), so [SaveRobot robot] re-stores the same object under the
    same key.

    Go's [int] is a 64-bit two's complement integer: every arithmetic
    operation of the handlers is followed by [wrap64], and [/] is Go's
    truncating division [Z.quot].  Timestamps of actions are not modelled
    (no property here depends on them).  A request is modelled on its own:
    the store's mutex only serialises requests, it is not represented. *)

From Stdlib Require Import ZArith Lia.
From stdpp Require Import base gmap strings list pretty.

Local Open Scope string_scope.
Local Open Scope list_scope.
Local Open Scope Z_scope.

(** ** Go's 64-bit [int] *)

Definition wrap64 (z : Z) : Z := (z + 2^63) mod 2^64 - 2^63.

Definition in_int (z : Z) : bool := (-2^63 <=? z) && (z <? 2^63).

(** ** models.go *)

Record Position := mkPosition { X : Z; Y : Z }.

(** [Action]; the [Timestamp] field is left out. *)
Record Action := mkAction { Type_ : string; Details : string }.

(** [Robot]; [ID] is the key it is stored under (see above). *)
Record Robot := mkRobot {
  Position' : Position;
  Direction : string;
  Energy : Z;
  Inventory : list string;
  Actions : list Action
}.

Record MoveRequest := mkMoveRequest { MoveDirection : string }.

Record StateUpdateRequest := mkStateUpdateRequest {
  ReqEnergy : option Z;
  ReqPosition : option Position
}.

Record Link := mkLink { Rel : string; Href : string }.

Record PageInfo := mkPageInfo {
  Number : Z;
  Size : Z;
  TotalElements : Z;
  TotalPages : Z;
  HasNext : bool;
  HasPrevious : bool
}.

Record ActionWithLinks := mkActionWithLinks { AwAction : Action; AwLinks : list Link }.

Record PaginatedActions := mkPaginatedActions {
  Page : PageInfo;
  PActions : list ActionWithLinks;
  Links : list Link
}.

(** Field writes on a robot object. *)
Definition set_Position (p : Position) (r : Robot) : Robot :=
  mkRobot p (Direction r) (Energy r) (Inventory r) (Actions r).
Definition set_Energy (e : Z) (r : Robot) : Robot :=
  mkRobot (Position' r) (Direction r) e (Inventory r) (Actions r).
Definition set_Inventory (inv : list string) (r : Robot) : Robot :=
  mkRobot (Position' r) (Direction r) (Energy r) inv (Actions r).
Definition set_Actions (acts : list Action) (r : Robot) : Robot :=
  mkRobot (Position' r) (Direction r) (Energy r) (Inventory r) acts.

(** ** storage.go *)

(** [items : map[string]bool] only ever holds [true] values ([AddItem]
    writes [true], [RemoveItem] deletes), so it is the set of its keys. *)
Record RobotStorage := mkStorage {
  robots : gmap string Robot;
  items : gset string
}.

(** Handler outcomes: the HTTP error a handler answers with, or a runtime
    panic (answered 500 by gin's recovery middleware). *)
Inductive HErr :=
| NotFound (msg : string)
| BadRequest (msg : string)
| Panic (msg : string).

(** A handler threads the store and may stop with an error; the writes
    done before the error stay in the store (there is no rollback). *)
Definition M (A : Type) : Type := RobotStorage -> (HErr + A) * RobotStorage.

Definition ret {A} (a : A) : M A := fun s => (inr a, s).
Definition fail {A} (e : HErr) : M A := fun s => (inl e, s).
Definition bind {A B} (m : M A) (k : A -> M B) : M B :=
  fun s => match m s with
           | (inl e, s') => (inl e, s')
           | (inr a, s') => k a s'
           end.

Notation "x <- m ;; k" := (bind m (fun x => k))
  (at level 100, m at next level, right associativity).
Notation "m ;; k" := (bind m (fun _ => k)) (at level 100, right associativity).

(** [GetRobot]: the pointer stored under [id], if any. *)
Definition GetRobot (id : string) : M (option Robot) :=
  fun s => (inr (robots s !! id), s).

(** Reading through a pointer obtained from [GetRobot]; objects are never
    removed, so the nil case (a Go panic) does not occur. *)
Definition deref (id : string) : M Robot :=
  fun s => match robots s !! id with
           | Some r => (inr r, s)
           | None => (inl (Panic "nil pointer dereference"), s)
           end.

(** A field write through the pointer obtained for [id]. *)
Definition write_robot (id : string) (f : Robot -> Robot) : M unit :=
  r <- deref id ;;
  fun s => (inr tt, mkStorage (<[id := f r]> (robots s)) (items s)).

(** [SaveRobot robot]: [s.robots[robot.ID] = robot]. *)
Definition SaveRobot (id : string) : M unit :=
  r <- deref id ;;
  fun s => (inr tt, mkStorage (<[id := r]> (robots s)) (items s)).

(** [AddAction]: appends to the stored robot's log; an unknown id leaves
    the store alone (the returned error is ignored by every caller). *)
Definition AddAction (robotID actionType details : string) : M unit :=
  fun s => (inr tt,
            mkStorage (alter (fun r => set_Actions (Actions r ++ [mkAction actionType details]) r)
                             robotID (robots s))
                      (items s)).

Definition ItemExists (itemID : string) : M bool :=
  fun s => (inr (bool_decide (itemID ∈ items s)), s).

Definition AddItem (itemID : string) : M unit :=
  fun s => (inr tt, mkStorage (robots s) ({[itemID]} ∪ items s)).

Definition RemoveItem (itemID : string) : M unit :=
  fun s => (inr tt, mkStorage (robots s) (items s ∖ {[itemID]})).

(** [Initialize]: the seed data. *)
Definition robot1_actions : list Action := [
  mkAction "create" "Robot was created";
  mkAction "move" "Moved north";
  mkAction "pickup" "Picked up item1";
  mkAction "putdown" "Put down item1";
  mkAction "update" "Updated energy to 100";
  mkAction "move" "Moved east";
  mkAction "attack" "Attacked robot2"].

Definition robot2_actions : list Action := [
  mkAction "create" "Robot was created";
  mkAction "move" "Moved south";
  mkAction "damaged" "Damaged by robot1"].

Definition Initialize : RobotStorage :=
  mkStorage
    (<[ "robot2" := mkRobot (mkPosition 10 10) "south" 100 [] robot2_actions ]>
      (<[ "robot1" := mkRobot (mkPosition 0 0) "north" 100 [] robot1_actions ]> ∅))
    ({[ "item1" ]} ∪ {[ "item2" ]} ∪ {[ "item3" ]}).

(** ** handlers.go *)

(** The [switch moveReq.Direction] of [MoveRobot]: the position update of
    each case, [None] for the [default] case. *)
Definition move_case (d : string) : option (Position -> Position) :=
  if String.eqb d "up" then Some (fun p => mkPosition (X p) (wrap64 (Y p + 1)))
  else if String.eqb d "down" then Some (fun p => mkPosition (X p) (wrap64 (Y p - 1)))
  else if String.eqb d "left" then Some (fun p => mkPosition (wrap64 (X p - 1)) (Y p))
  else if String.eqb d "right" then Some (fun p => mkPosition (wrap64 (X p + 1)) (Y p))
  else None.

(** [MoveRobot]; [req] is [None] when [ShouldBindJSON] fails. *)
Definition MoveRobot (id : string) (req : option MoveRequest) : M Position :=
  o <- GetRobot id ;;
  match o with
  | None => fail (NotFound "Robot not found")
  | Some _ =>
    match req with
    | None => fail (BadRequest "Invalid request format")
    | Some moveReq =>
      match move_case (MoveDirection moveReq) with
      | None => fail (BadRequest "Invalid direction")
      | Some step =>
        write_robot id (fun r => set_Position (step (Position' r)) r) ;;
        AddAction id "move" ("Moved " +:+ MoveDirection moveReq) ;;
        SaveRobot id ;;
        robot <- deref id ;;
        ret (Position' robot)
      end
    end
  end.

Definition PickupItem (id itemID : string) : M (list string) :=
  o <- GetRobot id ;;
  match o with
  | None => fail (NotFound "Robot not found")
  | Some _ =>
    ex <- ItemExists itemID ;;
    if negb ex then fail (NotFound "Item not found") else
    write_robot id (fun r => set_Inventory (Inventory r ++ [itemID]) r) ;;
    RemoveItem itemID ;;
    SaveRobot id ;;
    AddAction id "pickup" ("Picked up item " +:+ itemID) ;;
    robot <- deref id ;;
    ret (Inventory robot)
  end.

(** The [for _, item := range robot.Inventory] loop of [PutdownItem],
    returning [(hasItem, newInventory)]. *)
Fixpoint putdown_scan (itemID : string) (inv : list string)
    (hasItem : bool) (newInventory : list string) : bool * list string :=
  match inv with
  | [] => (hasItem, newInventory)
  | item :: rest =>
    if String.eqb item itemID then putdown_scan itemID rest true newInventory
    else putdown_scan itemID rest hasItem (newInventory ++ [item])
  end.

Definition PutdownItem (id itemID : string) : M (list string) :=
  o <- GetRobot id ;;
  match o with
  | None => fail (NotFound "Robot not found")
  | Some _ =>
    robot <- deref id ;;
    let '(hasItem, newInventory) := putdown_scan itemID (Inventory robot) false [] in
    if negb hasItem then fail (BadRequest "Robot does not have this item") else
    write_robot id (set_Inventory newInventory) ;;
    AddItem itemID ;;
    SaveRobot id ;;
    AddAction id "putdown" ("Put down item " +:+ itemID) ;;
    robot' <- deref id ;;
    ret (Inventory robot')
  end.

(** [UpdateState]; [req] is [None] when [ShouldBindJSON] fails. *)
Definition UpdateState (id : string) (req : option StateUpdateRequest) : M Robot :=
  o <- GetRobot id ;;
  match o with
  | None => fail (NotFound "Robot not found")
  | Some _ =>
    match req with
    | None => fail (BadRequest "Invalid request format")
    | Some stateReq =>
      match ReqEnergy stateReq with
      | Some e =>
        write_robot id (set_Energy e) ;;
        AddAction id "update" ("Updated energy to " +:+ pretty e)
      | None => ret tt
      end ;;
      match ReqPosition stateReq with
      | Some p =>
        write_robot id (set_Position p) ;;
        AddAction id "update"
          ("Updated position to (" +:+ pretty (X p) +:+ "," +:+ pretty (Y p) +:+ ")")
      | None => ret tt
      end ;;
      SaveRobot id ;;
      deref id
    end
  end.

(** A query parameter of [GetActions]: absent, or present with the result
    of reading it as a decimal integer ([None]: not a decimal integer). *)
Inductive QueryValue :=
| Missing
| Text (parsed : option Z).

(** [c.DefaultQuery(key, dflt)] followed by [strconv.Atoi]: [None] is an
    [Atoi] error, which includes a number outside the range of [int]. *)
Definition query_atoi (q : QueryValue) (dflt : Z) : option Z :=
  match q with
  | Missing => Some dflt
  | Text None => None
  | Text (Some z) => if in_int z then Some z else None
  end.

(** [int(math.Ceil(float64(n) / float64(size)))] for [n >= 0], [size >= 1].
    The float64 computation is exact here as long as the log has fewer than
    2^52 entries, far beyond any log that fits in memory. *)
Definition ceil_div (n size : Z) : Z := (n + size - 1) / size.

(** Go's bounds-checked [robot.Actions[i]]; [None] is the panic. *)
Definition index_actions (acts : list Action) (i : Z) : option Action :=
  if i <? 0 then None else acts !! Z.to_nat i.

Definition self_href (host id : string) (i : Z) : string :=
  "http://" +:+ host +:+ "/robot/" +:+ id +:+ "/actions/" +:+ pretty (wrap64 (i + 1)).

(** [for i := startIndex; i < endIndex; i++ { action := robot.Actions[i]; ... }]:
    [k] is the number of iterations, [endIndex - startIndex] (or 0).
    [None] is the index-out-of-range panic. *)
Fixpoint actions_loop (host id : string) (acts : list Action) (k : nat) (i : Z)
    : option (list ActionWithLinks) :=
  match k with
  | O => Some []
  | S k' =>
    match index_actions acts i with
    | None => None
    | Some action =>
      match actions_loop host id acts k' (i + 1) with
      | None => None
      | Some rest => Some (mkActionWithLinks action [mkLink "self" (self_href host id i)] :: rest)
      end
    end
  end.

(** The target of the "next" and "previous" links. *)
Definition actions_href (id : string) (page size : Z) : string :=
  "/robot/" +:+ id +:+ "/actions?page=" +:+ pretty page +:+ "&size=" +:+ pretty size.

(** The pure part of [GetActions], from the robot's log on. *)
Definition paginate (host id : string) (acts : list Action) (pageQ sizeQ : QueryValue)
    : HErr + PaginatedActions :=
  let page0 := match query_atoi pageQ 1 with
               | Some p => if p <? 1 then 1 else p
               | None => 1
               end in
  let size := match query_atoi sizeQ 5 with
              | Some z => if z <? 1 then 5 else z
              | None => 5
              end in
  let totalElements := Z.of_nat (length acts) in
  let totalPages := ceil_div totalElements size in
  let page := if (page0 >? totalPages) && (totalPages >? 0) then totalPages else page0 in
  let startIndex := wrap64 ((page - 1) * size) in
  let endIndex0 := wrap64 (startIndex + size) in
  let endIndex := if endIndex0 >? totalElements then totalElements else endIndex0 in
  match actions_loop host id acts (Z.to_nat (endIndex - startIndex)) startIndex with
  | None => inl (Panic "index out of range")
  | Some paginatedActions =>
    let pageInfo := mkPageInfo page size totalElements totalPages
                      (page <? totalPages) (page >? 1) in
    let links :=
      ((if HasNext pageInfo then [mkLink "next" (actions_href id (wrap64 (page + 1)) size)] else [])
       ++ (if HasPrevious pageInfo then [mkLink "previous" (actions_href id (wrap64 (page - 1)) size)] else [])) in
    inr (mkPaginatedActions pageInfo paginatedActions links)
  end.

(** [GetActions]; [host] is [c.Request.Host]. *)
Definition GetActions (host id : string) (pageQ sizeQ : QueryValue) : M PaginatedActions :=
  o <- GetRobot id ;;
  match o with
  | None => fail (NotFound "Robot not found")
  | Some _ =>
    robot <- deref id ;;
    match paginate host id (Actions robot) pageQ sizeQ with
    | inl e => fail e
    | inr res => ret res
    end
  end.

(** [AttackRobot]; [attacker] and [target] are pointers, the same one when
    [id = targetID].  Returns [(attacker_energy, target_energy, damage_dealt)]. *)
Definition AttackRobot (id targetID : string) : M (Z * Z * Z) :=
  o <- GetRobot id ;;
  match o with
  | None => fail (NotFound "Attacker robot not found")
  | Some _ =>
    o' <- GetRobot targetID ;;
    match o' with
    | None => fail (NotFound "Target robot not found")
    | Some _ =>
      attacker <- deref id ;;
      let energyReduction := Z.quot (wrap64 (Energy attacker * 5)) 100 in
      write_robot id (fun r => set_Energy (wrap64 (Energy r - energyReduction)) r) ;;
      target <- deref targetID ;;
      let damageFactor := 15 in
      let damage := Z.quot (wrap64 (Energy target * damageFactor)) 100 in
      write_robot targetID (fun r => set_Energy (wrap64 (Energy r - damage)) r) ;;
      target' <- deref targetID ;;
      (if Energy target' <? 0 then write_robot targetID (set_Energy 0) else ret tt) ;;
      AddAction id "attack" ("Attacked robot " +:+ targetID) ;;
      AddAction targetID "damaged" ("Damaged by robot " +:+ id) ;;
      SaveRobot id ;;
      SaveRobot targetID ;;
      attacker' <- deref id ;;
      target'' <- deref targetID ;;
      ret (Energy attacker', Energy target'', damage)
    end
  end.

(** [GetStatus]; [host] is [c.Request.Host] and [tls] whether [c.Request.TLS]
    is set.  The [id] answered is [robot.ID], which is the key [id] (the
    store is keyed by the robots' IDs). *)
Record RobotStatus := mkRobotStatus {
  StatusID : string;
  StatusPosition : Position;
  StatusEnergy : Z;
  StatusInventory : list string;
  StatusLinks : list Link
}.

Definition GetStatus (host : string) (tls : bool) (id : string) : M RobotStatus :=
  o <- GetRobot id ;;
  match o with
  | None => fail (NotFound "Robot not found")
  | Some robot =>
    let scheme := if tls then "https" else "http" in
    let links := [mkLink "self" (scheme +:+ "://" +:+ host +:+ "/robot/" +:+ id +:+ "/status");
                  mkLink "actions" (scheme +:+ "://" +:+ host +:+ "/robot/" +:+ id +:+ "/actions?page=1&size=5")] in
    ret (mkRobotStatus id (Position' robot) (Energy robot) (Inventory robot) links)
  end.


(** ** Requests against the store *)

Inductive Op :=
| OpMove (id : string) (req : option MoveRequest)
| OpPickup (id itemID : string)
| OpPutdown (id itemID : string)
| OpUpdate (id : string) (req : option StateUpdateRequest)
| OpActions (host id : string) (pageQ sizeQ : QueryValue)
| OpAttack (id targetID : string).

(** The outcome of one request: [inl] the error it answers with. *)
Definition run_op (op : Op) (s : RobotStorage) : (HErr + unit) * RobotStorage :=
  match op with
  | OpMove id req => (_ <- MoveRobot id req ;; ret tt) s
  | OpPickup id it => (_ <- PickupItem id it ;; ret tt) s
  | OpPutdown id it => (_ <- PutdownItem id it ;; ret tt) s
  | OpUpdate id req => (_ <- UpdateState id req ;; ret tt) s
  | OpActions host id p q => (_ <- GetActions host id p q ;; ret tt) s
  | OpAttack id t => (_ <- AttackRobot id t ;; ret tt) s
  end.

Fixpoint run_ops (ops : list Op) (s : RobotStorage) : RobotStorage :=
  match ops with
  | [] => s
  | op :: rest => run_ops rest (snd (run_op op s))
  end.

(** The energy after the clamp [if target.Energy < 0 { target.Energy = 0 }]. *)
Definition clamp0 (e : Z) : Z := if e <? 0 then 0 else e.

(** ** Store invariants *)

(** Every energy is a non-negative [int]. *)
Definition energies_ok (s : RobotStorage) : Prop :=
  forall id r, robots s !! id = Some r -> 0 <= Energy r < 2^63.

(** An item is in the world or in the inventory of at most one robot. *)
Definition items_exclusive (s : RobotStorage) : Prop :=
  (forall x id r, x ∈ items s -> robots s !! id = Some r -> x ∉ Inventory r) /\
  (forall x id1 id2 r1 r2, robots s !! id1 = Some r1 -> robots s !! id2 = Some r2 ->
     x ∈ Inventory r1 -> x ∈ Inventory r2 -> id1 = id2).

(** The energy of an [UpdateState] request, when present, is non-negative. *)
Definition update_energy_nonneg (op : Op) : Prop :=
  match op with
  | OpUpdate _ (Some req) =>
    match ReqEnergy req with
    | Some e => 0 <= e < 2^63
    | None => True
    end
  | _ => True
  end.

(** The log entries [UpdateState] appends for a request. *)
Definition update_entries (req : StateUpdateRequest) : list Action :=
  match ReqEnergy req with
  | Some e => [mkAction "update" ("Updated energy to " +:+ pretty e)]
  | None => []
  end ++
  match ReqPosition req with
  | Some p => [mkAction "update"
                 ("Updated position to (" +:+ pretty (X p) +:+ "," +:+ pretty (Y p) +:+ ")")]
  | None => []
  end.

(** ** Auxiliary notions for the store and pagination proofs *)

(** Each robot present in [s] is present in [s'] and conversely, and its log in
    [s'] extends its log in [s] by at most [n] entries. *)
Definition log_step (n : nat) (s s' : RobotStorage) : Prop :=
  forall k, (robots s !! k = None <-> robots s' !! k = None) /\
    (forall r r', robots s !! k = Some r -> robots s' !! k = Some r' ->
       exists suf, Actions r' = Actions r ++ suf /\ (length suf <= n)%nat).


(** Item [x] lies in the world or in some robot's inventory. *)
Definition held (s : RobotStorage) (x : string) : Prop :=
  x ∈ items s \/ exists k r, robots s !! k = Some r /\ x ∈ Inventory r.


Definition inv_nodup (s : RobotStorage) : Prop :=
  forall k r, robots s !! k = Some r -> NoDup (Inventory r).

(** [page] and [size] after [GetActions]' parsing and defaults. *)
Definition norm_page (q : QueryValue) : Z :=
  match query_atoi q 1 with Some p => if p <? 1 then 1 else p | None => 1 end.
Definition norm_size (q : QueryValue) : Z :=
  match query_atoi q 5 with Some z => if z <? 1 then 5 else z | None => 5 end.

(** The entries answered for page [p] of size [size] (none on an error). *)
Definition page_actions (host id : string) (acts : list Action) (size p : Z) : list Action :=
  match paginate host id acts (Text (Some p)) (Text (Some size)) with
  | inr res => map AwAction (PActions res)
  | inl _ => []
  end.


(** * Proofs *)

(** Runs a handler on a store whose relevant lookups are known. *)
Ltac run_store :=
  do 6 (try simplify_map_eq; cbv beta iota).

(** Equality of two maps that differ from a common one at keys [i], [j]. *)
Ltac map_ext i j :=
  apply map_eq; let k := fresh "k" in intros k;
  destruct (decide (k = i)); destruct (decide (k = j)); subst;
  simplify_map_eq; reflexivity.

Ltac robot_eq :=
  unfold set_Actions, set_Energy, set_Position, set_Inventory; simpl;
  rewrite ?app_nil_r, <- ?app_assoc; reflexivity.

(** ** 64-bit arithmetic *)

Lemma wrap64_small (z : Z) : -2^63 <= z < 2^63 -> wrap64 z = z.
Proof.
  intros H. unfold wrap64. rewrite Z.mod_small; lia.
Qed.

Lemma wrap64_range (z : Z) : -2^63 <= wrap64 z < 2^63.
Proof.
  unfold wrap64. pose proof (Z.mod_pos_bound (z + 2^63) (2^64)). lia.
Qed.

Lemma attacker_cost_nonneg (e : Z) :
  0 <= e < 2^63 -> 0 <= wrap64 (e - Z.quot (wrap64 (e * 5)) 100).
Proof.
  intros He. unfold wrap64. Z.to_euclidean_division_equations. lia.
Qed.

Lemma clamp0_range (e : Z) : 0 <= clamp0 (wrap64 e) < 2^63.
Proof.
  unfold clamp0. pose proof (wrap64_range e). destruct (Z.ltb_spec (wrap64 e) 0); lia.
Qed.

(** ** [AttackRobot] on a store where both robots exist *)

Lemma AttackRobot_ne (s : RobotStorage) (id targetID : string) (ra rt : Robot) :
  id <> targetID ->
  robots s !! id = Some ra ->
  robots s !! targetID = Some rt ->
  let ea := wrap64 (Energy ra - Z.quot (wrap64 (Energy ra * 5)) 100) in
  let damage := Z.quot (wrap64 (Energy rt * 15)) 100 in
  let et := clamp0 (wrap64 (Energy rt - damage)) in
  AttackRobot id targetID s =
    (inr (ea, et, damage),
     mkStorage
       (<[targetID := set_Actions (Actions rt ++ [mkAction "damaged" ("Damaged by robot " +:+ id)])
                                  (set_Energy et rt)]>
        (<[id := set_Actions (Actions ra ++ [mkAction "attack" ("Attacked robot " +:+ targetID)])
                             (set_Energy ea ra)]> (robots s)))
       (items s)).
Proof.
  intros Hne Ha Ht ea damage et.
  cbv [AttackRobot write_robot SaveRobot bind GetRobot deref AddAction ret].
  rewrite Ha, Ht. simplify_map_eq. cbv beta iota.
  subst ea damage et. unfold clamp0.
  destruct (_ <? 0); run_store; do 2 f_equal; map_ext id targetID.
Qed.

(** Self-attack: [attacker] and [target] are the same pointer, so the
    damage is computed from the energy left after the attacker's cost. *)
Lemma AttackRobot_self (s : RobotStorage) (id : string) (r : Robot) :
  robots s !! id = Some r ->
  let e1 := wrap64 (Energy r - Z.quot (wrap64 (Energy r * 5)) 100) in
  let damage := Z.quot (wrap64 (e1 * 15)) 100 in
  let e2 := clamp0 (wrap64 (e1 - damage)) in
  AttackRobot id id s =
    (inr (e2, e2, damage),
     mkStorage
       (<[id := set_Actions (Actions r ++ [mkAction "attack" ("Attacked robot " +:+ id);
                                           mkAction "damaged" ("Damaged by robot " +:+ id)])
                            (set_Energy e2 r)]> (robots s))
       (items s)).
Proof.
  intros Hr e1 damage e2.
  cbv [AttackRobot write_robot SaveRobot bind GetRobot deref AddAction ret].
  rewrite Hr. simplify_map_eq. cbv beta iota.
  subst e1 damage e2. unfold clamp0.
  destruct (_ <? 0); run_store; do 2 f_equal.
  all: apply map_eq; intros k; destruct (decide (k = id)); subst; simplify_map_eq;
       [ f_equal; unfold set_Actions; simpl; rewrite <- app_assoc; reflexivity | reflexivity ].
Qed.

(** ** The other handlers on a store where the robot exists *)

Lemma MoveRobot_ok (s : RobotStorage) (id d : string) (r : Robot) (step : Position -> Position) :
  robots s !! id = Some r ->
  move_case d = Some step ->
  MoveRobot id (Some (mkMoveRequest d)) s =
    (inr (step (Position' r)),
     mkStorage (<[id := set_Actions (Actions r ++ [mkAction "move" ("Moved " +:+ d)])
                                    (set_Position (step (Position' r)) r)]> (robots s))
               (items s)).
Proof.
  intros Hr Hd.
  cbv [MoveRobot write_robot SaveRobot bind GetRobot deref AddAction ret].
  rewrite Hr. simpl. rewrite Hd. rewrite Hr. run_store.
  do 2 f_equal. apply map_eq; intros k; destruct (decide (k = id)); subst; simplify_map_eq; reflexivity.
Qed.

Lemma PickupItem_ok (s : RobotStorage) (id itemID : string) (r : Robot) :
  robots s !! id = Some r ->
  itemID ∈ items s ->
  PickupItem id itemID s =
    (inr (Inventory r ++ [itemID]),
     mkStorage (<[id := set_Actions (Actions r ++ [mkAction "pickup" ("Picked up item " +:+ itemID)])
                                    (set_Inventory (Inventory r ++ [itemID]) r)]> (robots s))
               (items s ∖ {[itemID]})).
Proof.
  intros Hr Hi.
  cbv [PickupItem write_robot SaveRobot bind GetRobot deref AddAction ret ItemExists RemoveItem].
  rewrite Hr. rewrite bool_decide_true by exact Hi. simpl. rewrite Hr. run_store.
  do 2 f_equal. apply map_eq; intros k; destruct (decide (k = id)); subst; simplify_map_eq; reflexivity.
Qed.

Lemma PutdownItem_ok (s : RobotStorage) (id itemID : string) (r : Robot) (inv : list string) :
  robots s !! id = Some r ->
  putdown_scan itemID (Inventory r) false [] = (true, inv) ->
  PutdownItem id itemID s =
    (inr inv,
     mkStorage (<[id := set_Actions (Actions r ++ [mkAction "putdown" ("Put down item " +:+ itemID)])
                                    (set_Inventory inv r)]> (robots s))
               ({[itemID]} ∪ items s)).
Proof.
  intros Hr Hscan.
  cbv [PutdownItem write_robot SaveRobot bind GetRobot deref AddAction ret AddItem].
  rewrite Hr. cbv beta iota. rewrite Hr. cbv beta iota. rewrite Hscan. simpl. rewrite ?Hr. run_store.
  do 2 f_equal. apply map_eq; intros k; destruct (decide (k = id)); subst; simplify_map_eq; reflexivity.
Qed.

Lemma UpdateState_ok (s : RobotStorage) (id : string) (r : Robot) (req : StateUpdateRequest) :
  robots s !! id = Some r ->
  let r' := mkRobot (default (Position' r) (ReqPosition req)) (Direction r)
                    (default (Energy r) (ReqEnergy req)) (Inventory r)
                    (Actions r ++ update_entries req) in
  UpdateState id (Some req) s = (inr r', mkStorage (<[id := r']> (robots s)) (items s)).
Proof.
  intros Hr r'. subst r'. destruct r; destruct req as [[e|] [p|]];
  cbv [UpdateState update_entries write_robot SaveRobot bind GetRobot deref AddAction ret];
  simpl; rewrite Hr; run_store.
  all: match goal with |- (inr ?a, _) = (inr ?c, _) =>
         assert (Heq : a = c) by robot_eq; rewrite Heq end.
  all: f_equal; f_equal; apply map_eq; intros k; destruct (decide (k = id)); subst; simplify_map_eq;
       try robot_eq; reflexivity.
Qed.

Lemma GetActions_store (host id : string) (pageQ sizeQ : QueryValue) (s : RobotStorage) :
  snd (GetActions host id pageQ sizeQ s) = s.
Proof.
  cbv [GetActions bind GetRobot deref ret fail].
  destruct (robots s !! id) eqn:Hr; simpl; [ | reflexivity ].
  rewrite Hr. simpl. destruct (paginate host id (Actions r) pageQ sizeQ); reflexivity.
Qed.

(** ** A handler that answers with an error has not written the store *)

Lemma MoveRobot_error (s : RobotStorage) (id : string) (req : option MoveRequest) (e : HErr) :
  fst (MoveRobot id req s) = inl e -> snd (MoveRobot id req s) = s.
Proof.
  destruct (robots s !! id) as [r|] eqn:Hr.
  - destruct req as [[d]|].
    + destruct (move_case d) as [step|] eqn:Hd.
      * rewrite (MoveRobot_ok s id d r step Hr Hd). discriminate.
      * intros _. cbv [MoveRobot bind GetRobot fail]. rewrite Hr. simpl. rewrite Hd. reflexivity.
    + intros _. cbv [MoveRobot bind GetRobot fail]. rewrite Hr. reflexivity.
  - intros _. cbv [MoveRobot bind GetRobot fail]. rewrite Hr. reflexivity.
Qed.

Lemma PickupItem_error (s : RobotStorage) (id itemID : string) (e : HErr) :
  fst (PickupItem id itemID s) = inl e -> snd (PickupItem id itemID s) = s.
Proof.
  destruct (robots s !! id) as [r|] eqn:Hr.
  - destruct (decide (itemID ∈ items s)) as [Hi|Hi].
    + rewrite (PickupItem_ok s id itemID r Hr Hi). discriminate.
    + intros _. cbv [PickupItem bind GetRobot ItemExists fail]. rewrite Hr.
      rewrite bool_decide_false by exact Hi. reflexivity.
  - intros _. cbv [PickupItem bind GetRobot fail]. rewrite Hr. reflexivity.
Qed.

Lemma PutdownItem_error (s : RobotStorage) (id itemID : string) (e : HErr) :
  fst (PutdownItem id itemID s) = inl e -> snd (PutdownItem id itemID s) = s.
Proof.
  destruct (robots s !! id) as [r|] eqn:Hr.
  - destruct (putdown_scan itemID (Inventory r) false []) as [[|] inv] eqn:Hscan.
    + rewrite (PutdownItem_ok s id itemID r inv Hr Hscan). discriminate.
    + intros _. cbv [PutdownItem bind GetRobot deref fail]. rewrite Hr. cbv beta iota.
      rewrite Hr. cbv beta iota. rewrite Hscan. reflexivity.
  - intros _. cbv [PutdownItem bind GetRobot fail]. rewrite Hr. reflexivity.
Qed.

Lemma UpdateState_error (s : RobotStorage) (id : string) (req : option StateUpdateRequest) (e : HErr) :
  fst (UpdateState id req s) = inl e -> snd (UpdateState id req s) = s.
Proof.
  destruct (robots s !! id) as [r|] eqn:Hr.
  - destruct req as [req|].
    + rewrite (UpdateState_ok s id r req Hr). discriminate.
    + intros _. cbv [UpdateState bind GetRobot fail]. rewrite Hr. reflexivity.
  - intros _. cbv [UpdateState bind GetRobot fail]. rewrite Hr. reflexivity.
Qed.

Lemma AttackRobot_error (s : RobotStorage) (id targetID : string) (e : HErr) :
  fst (AttackRobot id targetID s) = inl e -> snd (AttackRobot id targetID s) = s.
Proof.
  destruct (robots s !! id) as [ra|] eqn:Ha.
  - destruct (robots s !! targetID) as [rt|] eqn:Ht.
    + destruct (decide (id = targetID)) as [<-|Hne].
      * rewrite (AttackRobot_self s id ra Ha). discriminate.
      * rewrite (AttackRobot_ne s id targetID ra rt Hne Ha Ht). discriminate.
    + intros _. cbv [AttackRobot bind GetRobot fail]. rewrite Ha. cbv beta iota.
      rewrite Ht. reflexivity.
  - intros _. cbv [AttackRobot bind GetRobot fail]. rewrite Ha. reflexivity.
Qed.

Lemma bind_unit {A} (m : M A) (s : RobotStorage) :
  (_ <- m ;; ret tt) s =
    (match fst (m s) with inl e => inl e | inr _ => inr tt end, snd (m s)).
Proof. cbv [bind ret]. destruct (m s) as [[e|a] s']; reflexivity. Qed.



(** ** The store a handler leaves behind *)

Lemma MoveRobot_cases (s : RobotStorage) (id : string) (req : option MoveRequest) :
  snd (MoveRobot id req s) = s \/
  exists r r', robots s !! id = Some r /\ Energy r' = Energy r /\ Inventory r' = Inventory r /\
    snd (MoveRobot id req s) = mkStorage (<[id := r']> (robots s)) (items s).
Proof.
  destruct (robots s !! id) as [r|] eqn:Hr.
  - destruct req as [[d]|].
    + destruct (move_case d) as [step|] eqn:Hd.
      * right. rewrite (MoveRobot_ok s id d r step Hr Hd). simpl.
        do 2 eexists; refine (conj _ (conj _ (conj _ eq_refl))); first [reflexivity | exact Hr].
      * left. cbv [MoveRobot bind GetRobot fail]. rewrite Hr. simpl. rewrite Hd. reflexivity.
    + left. cbv [MoveRobot bind GetRobot fail]. rewrite Hr. reflexivity.
  - left. cbv [MoveRobot bind GetRobot fail]. rewrite Hr. reflexivity.
Qed.

Lemma UpdateState_cases (s : RobotStorage) (id : string) (req : option StateUpdateRequest) :
  snd (UpdateState id req s) = s \/
  exists r r' req', req = Some req' /\ robots s !! id = Some r /\
    Energy r' = default (Energy r) (ReqEnergy req') /\ Inventory r' = Inventory r /\
    snd (UpdateState id req s) = mkStorage (<[id := r']> (robots s)) (items s).
Proof.
  destruct (robots s !! id) as [r|] eqn:Hr.
  - destruct req as [req|].
    + right. rewrite (UpdateState_ok s id r req Hr). simpl.
      do 3 eexists; refine (conj eq_refl (conj _ (conj _ (conj _ eq_refl)))); first [reflexivity | exact Hr].
    + left. cbv [UpdateState bind GetRobot fail]. rewrite Hr. reflexivity.
  - left. cbv [UpdateState bind GetRobot fail]. rewrite Hr. reflexivity.
Qed.

Lemma PickupItem_cases (s : RobotStorage) (id itemID : string) :
  snd (PickupItem id itemID s) = s \/
  exists r, robots s !! id = Some r /\ itemID ∈ items s /\
    snd (PickupItem id itemID s) =
      mkStorage (<[id := set_Actions (Actions r ++ [mkAction "pickup" ("Picked up item " +:+ itemID)])
                                     (set_Inventory (Inventory r ++ [itemID]) r)]> (robots s))
                (items s ∖ {[itemID]}).
Proof.
  destruct (robots s !! id) as [r|] eqn:Hr.
  - destruct (decide (itemID ∈ items s)) as [Hi|Hi].
    + right. rewrite (PickupItem_ok s id itemID r Hr Hi). simpl. eauto.
    + left. cbv [PickupItem bind GetRobot ItemExists fail]. rewrite Hr.
      rewrite bool_decide_false by exact Hi. reflexivity.
  - left. cbv [PickupItem bind GetRobot fail]. rewrite Hr. reflexivity.
Qed.

Lemma PutdownItem_cases (s : RobotStorage) (id itemID : string) :
  snd (PutdownItem id itemID s) = s \/
  exists r inv, robots s !! id = Some r /\ putdown_scan itemID (Inventory r) false [] = (true, inv) /\
    snd (PutdownItem id itemID s) =
      mkStorage (<[id := set_Actions (Actions r ++ [mkAction "putdown" ("Put down item " +:+ itemID)])
                                     (set_Inventory inv r)]> (robots s))
                ({[itemID]} ∪ items s).
Proof.
  destruct (robots s !! id) as [r|] eqn:Hr.
  - destruct (putdown_scan itemID (Inventory r) false []) as [[|] inv] eqn:Hscan.
    + right. rewrite (PutdownItem_ok s id itemID r inv Hr Hscan). simpl. eauto.
    + left. cbv [PutdownItem bind GetRobot deref fail]. rewrite Hr. cbv beta iota.
      rewrite Hr. cbv beta iota. rewrite Hscan. reflexivity.
  - left. cbv [PutdownItem bind GetRobot fail]. rewrite Hr. reflexivity.
Qed.

Lemma AttackRobot_cases (s : RobotStorage) (id targetID : string) :
  snd (AttackRobot id targetID s) = s \/
  (exists ra rt, id <> targetID /\ robots s !! id = Some ra /\ robots s !! targetID = Some rt /\
     let ea := wrap64 (Energy ra - Z.quot (wrap64 (Energy ra * 5)) 100) in
     let et := clamp0 (wrap64 (Energy rt - Z.quot (wrap64 (Energy rt * 15)) 100)) in
     snd (AttackRobot id targetID s) =
       mkStorage (<[targetID := set_Actions (Actions rt ++ [mkAction "damaged" ("Damaged by robot " +:+ id)])
                                            (set_Energy et rt)]>
                  (<[id := set_Actions (Actions ra ++ [mkAction "attack" ("Attacked robot " +:+ targetID)])
                                       (set_Energy ea ra)]> (robots s)))
                 (items s)) \/
  (exists r, id = targetID /\ robots s !! id = Some r /\
     let e1 := wrap64 (Energy r - Z.quot (wrap64 (Energy r * 5)) 100) in
     let e2 := clamp0 (wrap64 (e1 - Z.quot (wrap64 (e1 * 15)) 100)) in
     snd (AttackRobot id targetID s) =
       mkStorage (<[id := set_Actions (Actions r ++ [mkAction "attack" ("Attacked robot " +:+ id);
                                                     mkAction "damaged" ("Damaged by robot " +:+ id)])
                                      (set_Energy e2 r)]> (robots s))
                 (items s)).
Proof.
  destruct (robots s !! id) as [ra|] eqn:Ha.
  - destruct (robots s !! targetID) as [rt|] eqn:Ht.
    + destruct (decide (id = targetID)) as [<-|Hne].
      * right; right. exists ra. rewrite (AttackRobot_self s id ra Ha). simpl. eauto.
      * right; left. exists ra, rt. rewrite (AttackRobot_ne s id targetID ra rt Hne Ha Ht). simpl. eauto.
    + left. cbv [AttackRobot bind GetRobot fail]. rewrite Ha. cbv beta iota. rewrite Ht. reflexivity.
  - left. cbv [AttackRobot bind GetRobot fail]. rewrite Ha. reflexivity.
Qed.

(** ** [PutdownItem]'s loop is a filter *)

Lemma putdown_scan_filter (itemID : string) (inv : list string) (hasItem : bool) (acc : list string) :
  putdown_scan itemID inv hasItem acc =
    (hasItem || bool_decide (itemID ∈ inv), acc ++ filter (fun item => item <> itemID) inv).
Proof.
  revert hasItem acc. induction inv as [|item rest IH]; intros hasItem acc; simpl.
  - rewrite ?orb_false_r, ?app_nil_r. reflexivity.
  - rewrite !IH. destruct (String.eqb_spec item itemID) as [->|Hne].
    + rewrite filter_cons_False by (intros Hc; apply Hc; reflexivity).
      rewrite (bool_decide_true (itemID ∈ itemID :: rest)) by set_solver.
      rewrite orb_true_r, orb_true_l. reflexivity.
    + rewrite filter_cons_True by exact Hne. rewrite <- app_assoc. simpl.
      f_equal. f_equal. apply bool_decide_ext. set_solver.
Qed.

(** ** Energy stays a non-negative [int] *)

Lemma energies_ok_insert (m : gmap string Robot) (id : string) (r' : Robot) (its : gset string) :
  energies_ok (mkStorage m its) -> 0 <= Energy r' < 2^63 ->
  energies_ok (mkStorage (<[id := r']> m) its).
Proof.
  intros H Hr' k rk. simpl. rewrite lookup_insert_Some.
  intros [[-> <-]|[_ Hk]]; [exact Hr' | exact (H k rk Hk)].
Qed.

Lemma run_op_energies (op : Op) (s : RobotStorage) :
  update_energy_nonneg op -> energies_ok s -> energies_ok (snd (run_op op s)).
Proof.
  intros Hop H. destruct op as [id req|id it|id it|id req|host id p q|id t];
    simpl; rewrite bind_unit; simpl.
  - destruct (MoveRobot_cases s id req) as [->|(r & r' & Hr & He & _ & ->)]; [exact H|].
    apply energies_ok_insert; [exact H|]. rewrite He. exact (H id r Hr).
  - destruct (PickupItem_cases s id it) as [->|(r & Hr & _ & ->)]; [exact H|].
    apply energies_ok_insert; [exact H|]. exact (H id r Hr).
  - destruct (PutdownItem_cases s id it) as [->|(r & inv & Hr & _ & ->)]; [exact H|].
    apply energies_ok_insert; [exact H|]. exact (H id r Hr).
  - destruct (UpdateState_cases s id req) as [->|(r & r' & req' & -> & Hr & He & _ & ->)]; [exact H|].
    apply energies_ok_insert; [exact H|]. rewrite He. simpl in Hop.
    destruct (ReqEnergy req'); simpl; [exact Hop | exact (H id r Hr)].
  - rewrite GetActions_store. exact H.
  - destruct (AttackRobot_cases s id t) as [->|[(ra & rt & _ & Ha & Ht & ->)|(r & _ & Hr & ->)]];
      [exact H| |].
    + apply energies_ok_insert; [apply energies_ok_insert; [exact H|] | apply clamp0_range].
      pose proof (H id ra Ha). simpl. split; [apply attacker_cost_nonneg; lia | apply wrap64_range].
    + apply energies_ok_insert; [exact H | apply clamp0_range].
Qed.

(** ** Items are held by at most one party *)

Lemma items_exclusive_same_inv (s s' : RobotStorage) :
  items s' = items s ->
  (forall k r', robots s' !! k = Some r' -> exists r, robots s !! k = Some r /\ Inventory r' = Inventory r) ->
  items_exclusive s -> items_exclusive s'.
Proof.
  intros Hi Hr [H1 H2]. split.
  - intros x k r' Hx Hk. destruct (Hr k r' Hk) as (r & Hk' & ->). rewrite Hi in Hx. eauto.
  - intros x k1 k2 r1' r2' Hk1 Hk2 Hx1 Hx2.
    destruct (Hr k1 r1' Hk1) as (r1 & Hk1' & E1). destruct (Hr k2 r2' Hk2) as (r2 & Hk2' & E2).
    rewrite E1 in Hx1. rewrite E2 in Hx2. eauto.
Qed.

Lemma insert_same_inv (m : gmap string Robot) (id : string) (r r' : Robot) :
  m !! id = Some r -> Inventory r' = Inventory r ->
  forall k rk', <[id := r']> m !! k = Some rk' -> exists rk, m !! k = Some rk /\ Inventory rk' = Inventory rk.
Proof.
  intros Hr Hinv k rk'. rewrite lookup_insert_Some.
  intros [[-> <-]|[_ Hk]]; eauto.
Qed.

Lemma run_op_items_exclusive (op : Op) (s : RobotStorage) :
  items_exclusive s -> items_exclusive (snd (run_op op s)).
Proof.
  intros H. destruct op as [id req|id it|id it|id req|host id p q|id t];
    simpl; rewrite bind_unit; simpl.
  - destruct (MoveRobot_cases s id req) as [->|(r & r' & Hr & _ & Hi & ->)]; [exact H|].
    apply (items_exclusive_same_inv s); [reflexivity | | exact H].
    exact (insert_same_inv _ id r r' Hr Hi).
  - destruct (PickupItem_cases s id it) as [->|(r & Hr & Hit & ->)]; [exact H|].
    destruct H as [H1 H2]. split; simpl.
    + intros x k rk Hx. rewrite lookup_insert_Some.
      intros [[<- <-]|[_ Hk]]; simpl.
      * assert (x ∉ Inventory r) by (apply (H1 x id r); [set_solver | exact Hr]). set_solver.
      * apply (H1 x k rk); [set_solver | exact Hk].
    + intros x k1 k2 r1 r2. rewrite !lookup_insert_Some.
      intros [[<- <-]|[Hne1 Hk1]] [[<- <-]|[Hne2 Hk2]]; simpl; intros Hx1 Hx2; try reflexivity.
      * rewrite elem_of_app, list_elem_of_singleton in Hx1. destruct Hx1 as [Hx1| ->].
        -- exact (H2 x id k2 r r2 Hr Hk2 Hx1 Hx2).
        -- exfalso. exact (H1 it k2 r2 Hit Hk2 Hx2).
      * rewrite elem_of_app, list_elem_of_singleton in Hx2. destruct Hx2 as [Hx2| ->].
        -- exact (H2 x k1 id r1 r Hk1 Hr Hx1 Hx2).
        -- exfalso. exact (H1 it k1 r1 Hit Hk1 Hx1).
      * exact (H2 x k1 k2 r1 r2 Hk1 Hk2 Hx1 Hx2).
  - destruct (PutdownItem_cases s id it) as [->|(r & inv & Hr & Hscan & ->)]; [exact H|].
    rewrite putdown_scan_filter in Hscan. simpl in Hscan.
    injection Hscan as Hin <-. apply bool_decide_eq_true in Hin.
    destruct H as [H1 H2]. split; simpl.
    + intros x k rk Hx. rewrite lookup_insert_Some.
      intros [[<- <-]|[Hne Hk]]; simpl.
      * rewrite list_elem_of_filter. intros [Hxit Hxr].
        apply elem_of_union in Hx. destruct Hx as [Hx|Hx].
        -- apply Hxit. set_solver.
        -- exact (H1 x id r Hx Hr Hxr).
      * apply elem_of_union in Hx. destruct Hx as [Hx|Hx].
        -- apply elem_of_singleton in Hx. subst x. intros Hxk. apply Hne.
           exact (H2 it id k r rk Hr Hk Hin Hxk).
        -- exact (H1 x k rk Hx Hk).
    + intros x k1 k2 r1 r2. rewrite !lookup_insert_Some.
      intros [[<- <-]|[Hne1 Hk1]] [[<- <-]|[Hne2 Hk2]]; simpl; intros Hx1 Hx2; try reflexivity.
      * apply list_elem_of_filter in Hx1. exact (H2 x id k2 r r2 Hr Hk2 (proj2 Hx1) Hx2).
      * apply list_elem_of_filter in Hx2. exact (H2 x k1 id r1 r Hk1 Hr Hx1 (proj2 Hx2)).
      * exact (H2 x k1 k2 r1 r2 Hk1 Hk2 Hx1 Hx2).
  - destruct (UpdateState_cases s id req) as [->|(r & r' & req' & _ & Hr & _ & Hi & ->)]; [exact H|].
    apply (items_exclusive_same_inv s); [reflexivity | | exact H].
    exact (insert_same_inv _ id r r' Hr Hi).
  - rewrite GetActions_store. exact H.
  - destruct (AttackRobot_cases s id t) as [->|[(ra & rt & Hne & Ha & Ht & ->)|(r & _ & Hr & ->)]];
      [exact H| |].
    + apply (items_exclusive_same_inv s); [reflexivity | | exact H].
      intros k rk'. simpl. rewrite !lookup_insert_Some.
      intros [[<- <-]|[_ [[<- <-]|[_ Hk]]]]; eauto.
    + apply (items_exclusive_same_inv s); [reflexivity | | exact H].
      eapply (insert_same_inv _ id r _ Hr). reflexivity.
Qed.

(** ** States reachable from the seed *)

Lemma Initialize_energies : energies_ok Initialize.
Proof.
  intros id r. simpl. rewrite !lookup_insert_Some, lookup_empty.
  intros [[_ <-]|[_ [[_ <-]|[_ Hc]]]]; simpl; [lia | lia | discriminate].
Qed.

Lemma Initialize_items_exclusive : items_exclusive Initialize.
Proof.
  split.
  - intros x id r _. simpl. rewrite !lookup_insert_Some, lookup_empty.
    intros [[_ <-]|[_ [[_ <-]|[_ Hc]]]]; simpl; [set_solver | set_solver | discriminate].
  - intros x id1 id2 r1 r2. simpl. rewrite !lookup_insert_Some, lookup_empty.
    intros [[_ <-]|[_ [[_ <-]|[_ Hc]]]]; simpl; [set_solver | set_solver | discriminate].
Qed.

Lemma run_ops_energies (ops : list Op) (s : RobotStorage) :
  Forall update_energy_nonneg ops -> energies_ok s -> energies_ok (run_ops ops s).
Proof.
  revert s. induction ops as [|op ops IH]; intros s Hops H; simpl; [exact H|].
  inversion Hops as [|? ? Hop Hrest]; subst.
  apply IH; [exact Hrest|]. apply run_op_energies; assumption.
Qed.

Lemma run_ops_items_exclusive (ops : list Op) (s : RobotStorage) :
  items_exclusive s -> items_exclusive (run_ops ops s).
Proof.
  revert s. induction ops as [|op ops IH]; intros s H; simpl; [exact H|].
  apply IH. apply run_op_items_exclusive. exact H.
Qed.

(** On an empty log, as long as [page * size] stays below [2^63], the page
    is not clamped, no element is read and only a "previous" link can
    appear. *)
Lemma paginate_empty_no_overflow (host id : string) (pageQ sizeQ : QueryValue) (page size : Z) :
  query_atoi pageQ 1 = Some page -> 1 <= page ->
  query_atoi sizeQ 5 = Some size -> 1 <= size ->
  page * size < 2^63 ->
  paginate host id [] pageQ sizeQ =
    inr (mkPaginatedActions (mkPageInfo page size 0 0 false (1 <? page)) []
           (if 1 <? page then [mkLink "previous" (actions_href id (page - 1) size)] else [])).
Proof.
  intros Hp Hp1 Hs Hs1 Hov. unfold paginate. rewrite Hp, Hs. cbv zeta.
  rewrite (proj2 (Z.ltb_ge page 1)) by lia. rewrite (proj2 (Z.ltb_ge size 1)) by lia.
  simpl length. unfold ceil_div.
  replace ((Z.of_nat 0 + size - 1) / size) with 0 by (symmetry; apply Z.div_small; lia).
  rewrite !Z.gtb_ltb.
  replace ((0 <? page) && (0 <? 0)) with false by (destruct (0 <? page); reflexivity).
  rewrite (wrap64_small ((page - 1) * size)) by nia.
  rewrite (wrap64_small ((page - 1) * size + size)) by nia.
  rewrite (proj2 (Z.ltb_lt (Z.of_nat 0) ((page - 1) * size + size))) by nia.
  replace (Z.to_nat (Z.of_nat 0 - (page - 1) * size)) with O by nia.
  simpl actions_loop. cbv iota beta.
  rewrite (proj2 (Z.ltb_ge page 0)) by lia. simpl HasNext. simpl HasPrevious.
  destruct (1 <? page) eqn:Hgt; [|reflexivity].
  rewrite (wrap64_small (page - 1)) by lia. reflexivity.
Qed.


Lemma paginate_empty_no_overflow_witness :
  paginate "localhost" "robot3" [] (Text (Some 3)) (Text (Some 5)) =
    inr (mkPaginatedActions (mkPageInfo 3 5 0 0 false true) []
           [mkLink "previous" (actions_href "robot3" 2 5)]).
Proof.
  exact (paginate_empty_no_overflow "localhost" "robot3" (Text (Some 3)) (Text (Some 5)) 3 5
           eq_refl ltac:(lia) eq_refl ltac:(lia) ltac:(lia)).
Defined.

(** The loop over [startIndex, startIndex + k) within the log reads the
    entries of that slice, in order. *)
Lemma actions_loop_slice (host id : string) (acts : list Action) (k : nat) (i : Z) :
  0 <= i -> i + Z.of_nat k <= Z.of_nat (length acts) ->
  exists l, actions_loop host id acts k i = Some l /\
            map AwAction l = take k (drop (Z.to_nat i) acts).
Proof.
  revert i. induction k as [|k IH]; intros i Hi Hk; simpl.
  - exists []. split; reflexivity.
  - unfold index_actions. rewrite (proj2 (Z.ltb_ge i 0)) by lia.
    destruct (lookup_lt_is_Some_2 acts (Z.to_nat i)) as [a Ha]; [lia|].
    rewrite Ha. destruct (IH (i + 1)) as [l [Hl Hm]]; [lia | lia |].
    rewrite Hl. eexists. split; [reflexivity|].
    simpl. rewrite (drop_S _ a _ Ha). simpl. f_equal.
    rewrite Hm. f_equal. f_equal. lia.
Qed.

(** On a log of [n] entries, [0 < n < 2^62], with normalised [page] and
    [size]: the page is clamped to [totalPages = ceil(n / size)], the
    answer carries exactly the entries at indices
    [(page-1)*size, min(page*size, n))] in log order, [hasNext] and
    [hasPrevious] compare the page with [totalPages] and 1, and the "next"
    and "previous" links appear exactly then, pointing to page+1 and page-1
    with the same size. *)
Lemma paginate_slice (host id : string) (acts : list Action) (pageQ sizeQ : QueryValue) (page size : Z) :
  query_atoi pageQ 1 = Some page -> 1 <= page ->
  query_atoi sizeQ 5 = Some size -> 1 <= size ->
  (0 < length acts)%nat -> Z.of_nat (length acts) < 2^62 ->
  let n := Z.of_nat (length acts) in
  let tp := ceil_div n size in
  let p := Z.min page tp in
  exists pas,
    paginate host id acts pageQ sizeQ =
      inr (mkPaginatedActions (mkPageInfo p size n tp (p <? tp) (1 <? p)) pas
             ((if p <? tp then [mkLink "next" (actions_href id (p + 1) size)] else []) ++
              (if 1 <? p then [mkLink "previous" (actions_href id (p - 1) size)] else []))) /\
    map AwAction pas = take (Z.to_nat (Z.min (p * size) n - (p - 1) * size))
                            (drop (Z.to_nat ((p - 1) * size)) acts).
Proof.
  intros Hp Hp1 Hs Hs1 Hn0 Hn n tp p.
  assert (Hsz : size < 2^63).
  { unfold query_atoi in Hs. destruct sizeQ as [|[z|]]; [injection Hs; lia | | discriminate].
    unfold in_int in Hs. destruct (Z.leb_spec (-2^63) z); destruct (Z.ltb_spec z (2^63));
      simpl in Hs; try discriminate. injection Hs; lia. }
  assert (Hn1 : 1 <= n) by lia.
  assert (Htp : size * tp <= n + size - 1 < size * tp + size).
  { subst tp. unfold ceil_div. pose proof (Z.div_mod (n + size - 1) size ltac:(lia)).
    pose proof (Z.mod_pos_bound (n + size - 1) size ltac:(lia)). lia. }
  assert (Htp1 : 1 <= tp) by nia.
  assert (Htpn : tp <= n) by nia.
  assert (Hp' : 1 <= p <= tp /\ p <= page) by lia.
  assert (Hstart : 0 <= (p - 1) * size < n) by nia.
  assert (Hend : p * size < 2^63).
  { destruct (Z.eq_dec p 1) as [->|Hne]; [lia|].
    assert (size < n) by nia. nia. }
  unfold paginate. rewrite Hp, Hs. cbv zeta.
  rewrite (proj2 (Z.ltb_ge page 1)) by lia. rewrite (proj2 (Z.ltb_ge size 1)) by lia.
  change (Z.of_nat (length acts)) with n. change (ceil_div n size) with tp.
  replace (if (page >? tp) && (tp >? 0) then tp else page) with p
    by (subst p; destruct (Z.gtb_spec page tp); destruct (Z.gtb_spec tp 0); simpl; lia).
  assert (Hnlen : n = Z.of_nat (length acts)) by reflexivity.
  clearbody n tp p.
  rewrite (wrap64_small ((p - 1) * size)) by lia.
  rewrite (wrap64_small ((p - 1) * size + size)) by (replace ((p - 1) * size + size) with (p * size) by ring; lia).
  destruct (actions_loop_slice host id acts
              (Z.to_nat ((if (p - 1) * size + size >? n then n else (p - 1) * size + size) - (p - 1) * size))
              ((p - 1) * size)) as [l [Hl Hm]].
  { lia. }
  { destruct (Z.gtb_spec ((p - 1) * size + size) n); lia. }
  rewrite Hl. exists l. split.
  - cbv beta iota. simpl HasNext. simpl HasPrevious. rewrite !Z.gtb_ltb.
    destruct (Z.ltb_spec p tp); destruct (Z.ltb_spec 1 p); simpl;
      rewrite ?(wrap64_small (p + 1)), ?(wrap64_small (p - 1)) by lia; reflexivity.
  - rewrite Hm. f_equal. f_equal.
    destruct (Z.gtb_spec ((p - 1) * size + size) n); lia.
Qed.

(** ** Logs only grow *)

Lemma log_step_refl (n : nat) (s : RobotStorage) : log_step n s s.
Proof.
  intros k. split; [tauto|]. intros r r' H1 H2. rewrite H1 in H2. injection H2 as <-.
  exists []. rewrite app_nil_r. split; [reflexivity | simpl; lia].
Qed.

Lemma log_step_trans (n m : nat) (s1 s2 s3 : RobotStorage) :
  log_step n s1 s2 -> log_step m s2 s3 -> log_step (n + m) s1 s3.
Proof.
  intros H12 H23 k. destruct (H12 k) as [N12 A12]. destruct (H23 k) as [N23 A23].
  split; [tauto|]. intros r r' H1 H3.
  destruct (robots s2 !! k) as [r2|] eqn:H2.
  - destruct (A12 r r2 H1 eq_refl) as (suf1 & E1 & L1).
    destruct (A23 r2 r' eq_refl H3) as (suf2 & E2 & L2).
    exists (suf1 ++ suf2). rewrite E2, E1, app_assoc. split; [reflexivity|].
    rewrite length_app. lia.
  - assert (robots s1 !! k = None) by (apply N12; reflexivity). congruence.
Qed.

Lemma log_step_mono (n m : nat) (s s' : RobotStorage) :
  (n <= m)%nat -> log_step n s s' -> log_step m s s'.
Proof.
  intros Hle H k. destruct (H k) as [N A]. split; [exact N|].
  intros r r' H1 H2. destruct (A r r' H1 H2) as (suf & E & L). exists suf. split; [exact E | lia].
Qed.

Lemma log_step_insert (n : nat) (m : gmap string Robot) (its its' : gset string)
    (id : string) (r r' : Robot) (suf : list Action) :
  m !! id = Some r -> Actions r' = Actions r ++ suf -> (length suf <= n)%nat ->
  log_step n (mkStorage m its) (mkStorage (<[id := r']> m) its').
Proof.
  intros Hr Ha Hl k. simpl. destruct (decide (k = id)) as [->|Hne].
  - rewrite lookup_insert_eq. split; [split; congruence|].
    intros r1 r1' H1 H2. rewrite Hr in H1. injection H1 as <-. injection H2 as <-. eauto.
  - rewrite lookup_insert_ne by congruence. split; [tauto|].
    intros r1 r1' H1 H2. rewrite H1 in H2. injection H2 as <-.
    exists []. rewrite app_nil_r. split; [reflexivity | simpl; lia].
Qed.

Lemma MoveRobot_log_step (s : RobotStorage) (id : string) (req : option MoveRequest) :
  log_step 1 s (snd (MoveRobot id req s)).
Proof.
  destruct (robots s !! id) as [r|] eqn:Hr.
  - destruct req as [[d]|].
    + destruct (move_case d) as [step|] eqn:Hd.
      * rewrite (MoveRobot_ok s id d r step Hr Hd). simpl. destruct s as [m its]. simpl in *.
        eapply log_step_insert; [exact Hr | reflexivity | simpl; lia].
      * cbv [MoveRobot bind GetRobot fail]. rewrite Hr. simpl. rewrite Hd. apply log_step_refl.
    + cbv [MoveRobot bind GetRobot fail]. rewrite Hr. apply log_step_refl.
  - cbv [MoveRobot bind GetRobot fail]. rewrite Hr. apply log_step_refl.
Qed.

Lemma PickupItem_log_step (s : RobotStorage) (id itemID : string) :
  log_step 1 s (snd (PickupItem id itemID s)).
Proof.
  destruct (PickupItem_cases s id itemID) as [->|(r & Hr & _ & ->)]; [apply log_step_refl|].
  destruct s as [m its]. simpl in *. eapply log_step_insert; [exact Hr | reflexivity | simpl; lia].
Qed.

Lemma PutdownItem_log_step (s : RobotStorage) (id itemID : string) :
  log_step 1 s (snd (PutdownItem id itemID s)).
Proof.
  destruct (PutdownItem_cases s id itemID) as [->|(r & inv & Hr & _ & ->)]; [apply log_step_refl|].
  destruct s as [m its]. simpl in *. eapply log_step_insert; [exact Hr | reflexivity | simpl; lia].
Qed.

Lemma UpdateState_log_step (s : RobotStorage) (id : string) (req : option StateUpdateRequest) :
  log_step 2 s (snd (UpdateState id req s)).
Proof.
  destruct (robots s !! id) as [r|] eqn:Hr.
  - destruct req as [req|].
    + rewrite (UpdateState_ok s id r req Hr). simpl. destruct s as [m its]. simpl in *.
      eapply log_step_insert; [exact Hr | reflexivity |].
      unfold update_entries. destruct (ReqEnergy req), (ReqPosition req); simpl; lia.
    + cbv [UpdateState bind GetRobot fail]. rewrite Hr. apply log_step_refl.
  - cbv [UpdateState bind GetRobot fail]. rewrite Hr. apply log_step_refl.
Qed.

Lemma AttackRobot_log_step (s : RobotStorage) (id targetID : string) :
  log_step 2 s (snd (AttackRobot id targetID s)).
Proof.
  destruct (AttackRobot_cases s id targetID) as [->|[(ra & rt & Hne & Ha & Ht & ->)|(r & _ & Hr & ->)]];
    [apply log_step_refl | |].
  - destruct s as [m its]. simpl in *.
    apply (log_step_trans 1 1 _ (mkStorage (<[id := set_Actions (Actions ra ++ [mkAction "attack" ("Attacked robot " +:+ targetID)])
                                       (set_Energy (wrap64 (Energy ra - Z.quot (wrap64 (Energy ra * 5)) 100)) ra)]> m) its)).
    + eapply log_step_insert; [exact Ha | reflexivity | simpl; lia].
    + eapply log_step_insert; [rewrite lookup_insert_ne by congruence; exact Ht | reflexivity | simpl; lia].
  - destruct s as [m its]. simpl in *. eapply log_step_insert; [exact Hr | reflexivity | simpl; lia].
Qed.

Lemma run_op_log_step (op : Op) (s : RobotStorage) : log_step 2 s (snd (run_op op s)).
Proof.
  destruct op as [id req|id it|id it|id req|host id p q|id t]; simpl; rewrite bind_unit; simpl.
  - apply (log_step_mono 1); [lia | apply MoveRobot_log_step].
  - apply (log_step_mono 1); [lia | apply PickupItem_log_step].
  - apply (log_step_mono 1); [lia | apply PutdownItem_log_step].
  - apply UpdateState_log_step.
  - rewrite GetActions_store. apply log_step_refl.
  - apply AttackRobot_log_step.
Qed.

Lemma run_ops_log_step (ops : list Op) (s : RobotStorage) :
  log_step (2 * length ops) s (run_ops ops s).
Proof.
  revert s. induction ops as [|op ops IH]; intros s; simpl; [apply log_step_refl|].
  apply (log_step_mono (2 + 2 * length ops)); [lia|].
  apply (log_step_trans 2 _ _ (snd (run_op op s))); [apply run_op_log_step | apply IH].
Qed.

(** ** Items are neither created nor lost *)

Lemma held_same_inv (s s' : RobotStorage) :
  items s' = items s ->
  (forall k r', robots s' !! k = Some r' -> exists r, robots s !! k = Some r /\ Inventory r' = Inventory r) ->
  (forall k r, robots s !! k = Some r -> exists r', robots s' !! k = Some r' /\ Inventory r' = Inventory r) ->
  forall x, held s x <-> held s' x.
Proof.
  intros Hi H1 H2 x. unfold held. rewrite Hi. split.
  - intros [Hx|(k & r & Hk & Hx)]; [left; exact Hx|].
    destruct (H2 k r Hk) as (r' & Hk' & E). right. exists k, r'. rewrite E. auto.
  - intros [Hx|(k & r' & Hk & Hx)]; [left; exact Hx|].
    destruct (H1 k r' Hk) as (r & Hk' & E). right. exists k, r. rewrite <- E. auto.
Qed.

Lemma insert_same_inv_rev (m : gmap string Robot) (id : string) (r r' : Robot) :
  m !! id = Some r -> Inventory r' = Inventory r ->
  forall k rk, m !! k = Some rk -> exists rk', <[id := r']> m !! k = Some rk' /\ Inventory rk' = Inventory rk.
Proof.
  intros Hr Hinv k rk Hk. destruct (decide (k = id)) as [->|Hne].
  - exists r'. rewrite lookup_insert_eq. rewrite Hr in Hk. injection Hk as <-. auto.
  - exists rk. rewrite lookup_insert_ne by congruence. auto.
Qed.

Lemma held_insert_same_inv (m : gmap string Robot) (its : gset string) (id : string) (r r' : Robot) :
  m !! id = Some r -> Inventory r' = Inventory r ->
  forall x, held (mkStorage m its) x <-> held (mkStorage (<[id := r']> m) its) x.
Proof.
  intros Hr Hinv. apply held_same_inv; [reflexivity | |].
  - exact (insert_same_inv m id r r' Hr Hinv).
  - exact (insert_same_inv_rev m id r r' Hr Hinv).
Qed.

Lemma run_op_held (op : Op) (s : RobotStorage) (x : string) :
  held s x <-> held (snd (run_op op s)) x.
Proof.
  destruct s as [m its].
  destruct op as [id req|id it|id it|id req|host id p q|id t]; simpl; rewrite bind_unit; simpl.
  - destruct (MoveRobot_cases (mkStorage m its) id req) as [->|(r & r' & Hr & _ & Hi & ->)]; [tauto|].
    exact (held_insert_same_inv m its id r r' Hr Hi x).
  - destruct (PickupItem_cases (mkStorage m its) id it) as [->|(r & Hr & Hit & ->)]; [tauto|].
    simpl in *. unfold held; simpl. split.
    + intros [Hx|(k & rk & Hk & Hx)].
      * destruct (decide (x = it)) as [->|Hne].
        -- right. exists id. eexists. rewrite lookup_insert_eq. split; [reflexivity|]. simpl. set_solver.
        -- left. set_solver.
      * right. destruct (decide (k = id)) as [->|Hne].
        -- exists id. eexists. rewrite lookup_insert_eq. split; [reflexivity|].
           rewrite Hr in Hk. injection Hk as <-. simpl. set_solver.
        -- exists k, rk. rewrite lookup_insert_ne by congruence. auto.
    + intros [Hx|(k & rk & Hk & Hx)]; [left; set_solver|].
      rewrite lookup_insert_Some in Hk. destruct Hk as [[<- <-]|[Hne Hk]].
      * simpl in Hx. rewrite elem_of_app, list_elem_of_singleton in Hx. destruct Hx as [Hx| ->].
        -- right. exists id, r. auto.
        -- left. exact Hit.
      * right. exists k, rk. auto.
  - destruct (PutdownItem_cases (mkStorage m its) id it) as [->|(r & inv & Hr & Hscan & ->)]; [tauto|].
    rewrite putdown_scan_filter in Hscan. simpl in Hscan.
    injection Hscan as Hin <-. apply bool_decide_eq_true in Hin.
    simpl in *. unfold held; simpl. split.
    + intros [Hx|(k & rk & Hk & Hx)]; [left; set_solver|].
      destruct (decide (k = id)) as [->|Hne].
      * rewrite Hr in Hk. injection Hk as <-. destruct (decide (x = it)) as [->|Hne].
        -- left. set_solver.
        -- right. exists id. eexists. rewrite lookup_insert_eq. split; [reflexivity|].
           simpl. rewrite list_elem_of_filter. auto.
      * right. exists k, rk. rewrite lookup_insert_ne by congruence. auto.
    + intros [Hx|(k & rk & Hk & Hx)].
      * apply elem_of_union in Hx. destruct Hx as [Hx|Hx]; [|left; exact Hx].
        apply elem_of_singleton in Hx. subst x. right. exists id, r. auto.
      * rewrite lookup_insert_Some in Hk. destruct Hk as [[<- <-]|[Hne Hk]].
        -- simpl in Hx. apply list_elem_of_filter in Hx. right. exists id, r. split; [exact Hr | exact (proj2 Hx)].
        -- right. exists k, rk. auto.
  - destruct (UpdateState_cases (mkStorage m its) id req) as [->|(r & r' & req' & _ & Hr & _ & Hi & ->)]; [tauto|].
    exact (held_insert_same_inv m its id r r' Hr Hi x).
  - rewrite GetActions_store. tauto.
  - destruct (AttackRobot_cases (mkStorage m its) id t) as [->|[(ra & rt & Hne & Ha & Ht & ->)|(r & _ & Hr & ->)]];
      [tauto| |].
    + simpl in *.
      match goal with |- _ <-> held (mkStorage (<[t := _]> (<[id := ?ra']> m)) its) _ =>
        transitivity (held (mkStorage (<[id := ra']> m) its) x) end.
      * apply (held_insert_same_inv m its id ra); [exact Ha | reflexivity].
      * apply (held_insert_same_inv _ its t rt); [rewrite lookup_insert_ne by congruence; exact Ht | reflexivity].
    + simpl in *. apply (held_insert_same_inv m its id r _ Hr). reflexivity.
Qed.

Lemma run_op_inv_nodup (op : Op) (s : RobotStorage) :
  items_exclusive s -> inv_nodup s -> inv_nodup (snd (run_op op s)).
Proof.
  intros [Hex _] H. destruct s as [m its].
  assert (Hins : forall id r r', m !! id = Some r -> Inventory r' = Inventory r ->
            inv_nodup (mkStorage (<[id := r']> m) its)).
  { intros id r r' Hr Hi k rk. simpl. rewrite lookup_insert_Some.
    intros [[<- <-]|[_ Hk]]; [rewrite Hi; exact (H id r Hr) | exact (H k rk Hk)]. }
  destruct op as [id req|id it|id it|id req|host id p q|id t]; simpl; rewrite bind_unit; simpl.
  - destruct (MoveRobot_cases (mkStorage m its) id req) as [->|(r & r' & Hr & _ & Hi & ->)]; [exact H|].
    exact (Hins id r r' Hr Hi).
  - destruct (PickupItem_cases (mkStorage m its) id it) as [->|(r & Hr & Hit & ->)]; [exact H|].
    simpl in *. intros k rk. simpl. rewrite lookup_insert_Some.
    intros [[<- <-]|[_ Hk]]; [|exact (H k rk Hk)]. simpl.
    apply NoDup_app. split; [exact (H id r Hr)|]. split; [|apply NoDup_singleton].
    intros y Hy Hy'. apply list_elem_of_singleton in Hy'. subst y.
    exact (Hex it id r Hit Hr Hy).
  - destruct (PutdownItem_cases (mkStorage m its) id it) as [->|(r & inv & Hr & Hscan & ->)]; [exact H|].
    rewrite putdown_scan_filter in Hscan. simpl in Hscan. injection Hscan as _ <-.
    simpl in *. intros k rk. simpl. rewrite lookup_insert_Some.
    intros [[<- <-]|[_ Hk]]; [|exact (H k rk Hk)]. simpl.
    apply NoDup_filter. exact (H id r Hr).
  - destruct (UpdateState_cases (mkStorage m its) id req) as [->|(r & r' & req' & _ & Hr & _ & Hi & ->)]; [exact H|].
    exact (Hins id r r' Hr Hi).
  - rewrite GetActions_store. exact H.
  - destruct (AttackRobot_cases (mkStorage m its) id t) as [->|[(ra & rt & Hne & Ha & Ht & ->)|(r & _ & Hr & ->)]];
      [exact H| |].
    + simpl in *. intros k rk. simpl. rewrite !lookup_insert_Some.
      intros [[<- <-]|[_ [[<- <-]|[_ Hk]]]]; simpl; [exact (H t rt Ht) | exact (H id ra Ha) | exact (H k rk Hk)].
    + simpl in *. eapply (Hins id r); [exact Hr | reflexivity].
Qed.

(** ** Query parameters are normalised *)

Lemma query_atoi_in_int (q : QueryValue) (d p : Z) :
  in_int d = true -> query_atoi q d = Some p -> in_int p = true.
Proof.
  intros Hd. destruct q as [|[z|]]; simpl; [congruence| |discriminate].
  destruct (in_int z) eqn:Hz; congruence.
Qed.

Lemma norm_page_ok (q : QueryValue) :
  query_atoi (Text (Some (norm_page q))) 1 = Some (norm_page q) /\ 1 <= norm_page q.
Proof.
  unfold norm_page. destruct (query_atoi q 1) as [p|] eqn:Hq; [|split; [reflexivity | lia]].
  destruct (Z.ltb_spec p 1); [split; [reflexivity | lia]|].
  pose proof (query_atoi_in_int q 1 p eq_refl Hq) as Hin.
  simpl. rewrite Hin. split; [reflexivity | lia].
Qed.

Lemma norm_size_ok (q : QueryValue) :
  query_atoi (Text (Some (norm_size q))) 5 = Some (norm_size q) /\ 1 <= norm_size q.
Proof.
  unfold norm_size. destruct (query_atoi q 5) as [z|] eqn:Hq; [|split; [reflexivity | lia]].
  destruct (Z.ltb_spec z 1); [split; [reflexivity | lia]|].
  pose proof (query_atoi_in_int q 5 z eq_refl Hq) as Hin.
  simpl. rewrite Hin. split; [reflexivity | lia].
Qed.

Lemma paginate_norm (host id : string) (acts : list Action) (pageQ sizeQ : QueryValue) :
  paginate host id acts pageQ sizeQ =
    paginate host id acts (Text (Some (norm_page pageQ))) (Text (Some (norm_size sizeQ))).
Proof.
  destruct (norm_page_ok pageQ) as [Hp Hp1]. destruct (norm_size_ok sizeQ) as [Hs Hs1].
  unfold paginate at 2. rewrite Hp, Hs.
  rewrite (proj2 (Z.ltb_ge _ 1) Hp1), (proj2 (Z.ltb_ge _ 1) Hs1). reflexivity.
Qed.

Lemma paginate_total (host id : string) (acts : list Action) (pageQ sizeQ : QueryValue) :
  (0 < length acts)%nat -> Z.of_nat (length acts) < 2^62 ->
  exists res, paginate host id acts pageQ sizeQ = inr res.
Proof.
  intros H0 H1. rewrite paginate_norm.
  destruct (norm_page_ok pageQ) as [Hp Hp1]. destruct (norm_size_ok sizeQ) as [Hs Hs1].
  pose proof (paginate_slice host id acts _ _ _ _ Hp Hp1 Hs Hs1 H0 H1) as Hsl.
  cbv zeta in Hsl. destruct Hsl as [pas [Heq _]]. eexists. exact Heq.
Qed.

Lemma Initialize_lookup (k : string) (r : Robot) :
  robots Initialize !! k = Some r <->
  (k = "robot1" /\ r = mkRobot (mkPosition 0 0) "north" 100 [] robot1_actions) \/
  (k = "robot2" /\ r = mkRobot (mkPosition 10 10) "south" 100 [] robot2_actions).
Proof.
  simpl. rewrite !lookup_insert_Some, lookup_empty. split.
  - intros [[<- <-]|[_ [[<- <-]|[_ Hc]]]]; [right | left | discriminate]; auto.
  - intros [[-> ->]|[-> ->]]; [right; split; [discriminate|left] | left]; auto.
Qed.

Lemma held_Initialize (x : string) :
  held Initialize x <-> x = "item1" \/ x = "item2" \/ x = "item3".
Proof.
  unfold held. split.
  - intros [Hx|(k & r & Hk & Hx)].
    + simpl in Hx. set_solver.
    + apply Initialize_lookup in Hk. destruct Hk as [[_ ->]|[_ ->]]; simpl in Hx; set_solver.
  - intros Hx. left. simpl. set_solver.
Qed.

Lemma run_ops_held (ops : list Op) (s : RobotStorage) (x : string) :
  held s x <-> held (run_ops ops s) x.
Proof.
  revert s. induction ops as [|op ops IH]; intros s; simpl; [tauto|].
  rewrite (run_op_held op s x). apply IH.
Qed.

Lemma run_ops_inv_nodup (ops : list Op) (s : RobotStorage) :
  items_exclusive s -> inv_nodup s -> inv_nodup (run_ops ops s).
Proof.
  revert s. induction ops as [|op ops IH]; intros s Hex H; simpl; [exact H|].
  apply IH; [apply run_op_items_exclusive; exact Hex | apply run_op_inv_nodup; assumption].
Qed.

Lemma Initialize_inv_nodup : inv_nodup Initialize.
Proof.
  intros k r Hk. apply Initialize_lookup in Hk. destruct Hk as [[_ ->]|[_ ->]]; constructor.
Qed.

Lemma reachable_logs (ops : list Op) (k : string) :
  (robots (run_ops ops Initialize) !! k <> None <-> k = "robot1" \/ k = "robot2") /\
  (forall r, robots (run_ops ops Initialize) !! k = Some r ->
     (1 <= length (Actions r) <= 7 + 2 * length ops)%nat).
Proof.
  destruct (run_ops_log_step ops Initialize k) as [N A]. split.
  - rewrite <- N. split.
    + intros Hk. destruct (robots Initialize !! k) as [r|] eqn:Hr; [|congruence].
      apply Initialize_lookup in Hr. destruct Hr as [[-> _]|[-> _]]; auto.
    + intros [-> | ->]; simpl; discriminate.
  - intros r' Hr'. destruct (robots Initialize !! k) as [r|] eqn:Hr.
    + destruct (A r r' eq_refl Hr') as (suf & E & L). rewrite E, length_app.
      apply Initialize_lookup in Hr. destruct Hr as [[_ ->]|[_ ->]]; simpl; lia.
    + assert (robots (run_ops ops Initialize) !! k = None) by (apply N; reflexivity). congruence.
Qed.

Lemma wrap64_add_sub (y : Z) : -2^63 <= y < 2^63 -> wrap64 (wrap64 (y + 1) - 1) = y.
Proof. intros H. unfold wrap64. Z.to_euclidean_division_equations. lia. Qed.
Lemma wrap64_sub_add (y : Z) : -2^63 <= y < 2^63 -> wrap64 (wrap64 (y - 1) + 1) = y.
Proof. intros H. unfold wrap64. Z.to_euclidean_division_equations. lia. Qed.

Lemma MoveRobot_twice (s : RobotStorage) (id d d' : string) (r : Robot) (step step' : Position -> Position) :
  robots s !! id = Some r -> move_case d = Some step -> move_case d' = Some step' ->
  step' (step (Position' r)) = Position' r ->
  exists s1,
    MoveRobot id (Some (mkMoveRequest d)) s = (inr (step (Position' r)), s1) /\
    MoveRobot id (Some (mkMoveRequest d')) s1 =
      (inr (Position' r),
       mkStorage (<[id := set_Actions (Actions r ++ [mkAction "move" ("Moved " +:+ d);
                                                     mkAction "move" ("Moved " +:+ d')]) r]> (robots s))
                 (items s)).
Proof.
  intros Hr Hd Hd' Hinv. eexists. split; [exact (MoveRobot_ok s id d r step Hr Hd)|].
  rewrite (MoveRobot_ok _ id d' _ step' (lookup_insert_eq _ _ _) Hd'). simpl.
  rewrite Hinv, insert_insert_eq. f_equal. f_equal. f_equal.
  destruct r. unfold set_Actions, set_Position. simpl. rewrite <- app_assoc. reflexivity.
Qed.

Lemma attacker_cost_le (e : Z) : 0 <= e -> e * 5 < 2^63 ->
  0 <= wrap64 (e - Z.quot (wrap64 (e * 5)) 100) <= e.
Proof.
  intros H1 H2. rewrite (wrap64_small (e * 5)) by lia. rewrite Z.quot_div_nonneg by lia.
  rewrite wrap64_small by (Z.to_euclidean_division_equations; lia).
  Z.to_euclidean_division_equations; lia.
Qed.

Lemma target_damage_le (e : Z) : 0 <= e -> e * 15 < 2^63 ->
  0 <= clamp0 (wrap64 (e - Z.quot (wrap64 (e * 15)) 100)) <= e.
Proof.
  intros H1 H2. rewrite (wrap64_small (e * 15)) by lia. rewrite Z.quot_div_nonneg by lia.
  rewrite wrap64_small by (Z.to_euclidean_division_equations; lia).
  unfold clamp0. destruct (Z.ltb_spec (e - e * 15 / 100) 0); Z.to_euclidean_division_equations; lia.
Qed.

Lemma attacker_overflow_gain (e : Z) : 2^63 <= e * 5 <= 2^64 - 100 ->
  e < wrap64 (e - Z.quot (wrap64 (e * 5)) 100).
Proof.
  intros H. assert (Hw : wrap64 (e * 5) = e * 5 - 2^64) by (unfold wrap64; Z.to_euclidean_division_equations; lia).
  rewrite Hw. rewrite wrap64_small; Z.to_euclidean_division_equations; lia.
Qed.

Lemma target_overflow_gain (e : Z) : 2^63 <= e * 15 <= 2^64 - 100 ->
  Z.quot (wrap64 (e * 15)) 100 < 0 /\ e < clamp0 (wrap64 (e - Z.quot (wrap64 (e * 15)) 100)).
Proof.
  intros H. assert (Hw : wrap64 (e * 15) = e * 15 - 2^64) by (unfold wrap64; Z.to_euclidean_division_equations; lia).
  rewrite Hw. split; [Z.to_euclidean_division_equations; lia|].
  rewrite wrap64_small by (Z.to_euclidean_division_equations; lia).
  unfold clamp0. destruct (Z.ltb_spec (e - (e * 15 - 2^64) ÷ 100) 0); Z.to_euclidean_division_equations; lia.
Qed.

Lemma page_actions_slice (host id : string) (acts : list Action) (size p : Z) :
  1 <= size < 2^63 -> (0 < length acts)%nat -> Z.of_nat (length acts) < 2^62 ->
  1 <= p <= ceil_div (Z.of_nat (length acts)) size ->
  page_actions host id acts size p =
    take (Z.to_nat (Z.min (p * size) (Z.of_nat (length acts)) - (p - 1) * size))
         (drop (Z.to_nat ((p - 1) * size)) acts).
Proof.
  intros Hs H0 H1 Hp.
  assert (Htp : ceil_div (Z.of_nat (length acts)) size <= Z.of_nat (length acts)).
  { unfold ceil_div. apply Z.div_le_upper_bound; nia. }
  assert (Hq : forall z d, 1 <= z < 2^62 -> query_atoi (Text (Some z)) d = Some z).
  { intros z d Hz. simpl. unfold in_int. rewrite (proj2 (Z.leb_le _ _)), (proj2 (Z.ltb_lt _ _)) by lia. reflexivity. }
  assert (Hq' : query_atoi (Text (Some size)) 5 = Some size).
  { simpl. unfold in_int. rewrite (proj2 (Z.leb_le _ _)), (proj2 (Z.ltb_lt _ _)) by lia. reflexivity. }
  pose proof (paginate_slice host id acts (Text (Some p)) (Text (Some size)) p size
                (Hq p 1 ltac:(lia)) ltac:(lia) Hq' ltac:(lia) H0 H1) as Hsl.
  cbv zeta in Hsl. destruct Hsl as [pas [Heq Hm]].
  unfold page_actions. rewrite Heq. simpl. rewrite Hm.
  rewrite (Z.min_l p) by lia. reflexivity.
Qed.

Lemma pages_prefix (host id : string) (acts : list Action) (size : Z) (k : nat) :
  1 <= size < 2^63 -> (0 < length acts)%nat -> Z.of_nat (length acts) < 2^62 ->
  Z.of_nat k <= ceil_div (Z.of_nat (length acts)) size ->
  concat (map (fun i => page_actions host id acts size (Z.of_nat i)) (seq 1 k)) =
    take (Z.to_nat (Z.min (Z.of_nat k * size) (Z.of_nat (length acts)))) acts.
Proof.
  intros Hs H0 H1. set (n := Z.of_nat (length acts)).
  assert (Hc : size * ceil_div n size <= n + size - 1 < size * ceil_div n size + size).
  { unfold ceil_div. pose proof (Z.div_mod (n + size - 1) size ltac:(lia)).
    pose proof (Z.mod_pos_bound (n + size - 1) size ltac:(lia)). lia. }
  induction k as [|k IH]; intros Hk.
  - simpl. rewrite Z.min_l by lia. reflexivity.
  - rewrite seq_S, map_app, concat_app. cbn [map concat]. rewrite app_nil_r.
    replace (1 + k)%nat with (S k) by lia.
    rewrite IH by lia.
    rewrite page_actions_slice by (subst n; lia).
    assert (Hkn : Z.of_nat k * size < n) by nia.
    rewrite (Z.min_l (Z.of_nat k * size)) by lia.
    replace ((Z.of_nat (S k) - 1) * size) with (Z.of_nat k * size) by lia.
    rewrite take_take_drop. f_equal.
    pose proof (Z.le_min_r (Z.of_nat (S k) * size) n).
    assert (Z.of_nat k * size <= Z.min (Z.of_nat (S k) * size) n) by (apply Z.min_glb; nia).
    lia.
Qed.


(** * The claims *)

(** C1 (amended).  For existing robots, as long as the products the
    handler forms stay within [int]: when the attacker and the target
    differ, the attacker loses attackerEnergy * 5 / 100 and the target
    loses targetEnergy * 15 / 100, divisions rounding toward zero as Go's
    [/] does (floor for non-negative energies); the target's energy is
    then clamped to >= 0, [damage_dealt] is targetEnergy * 15 / 100, and
    exactly one "attack" entry goes to the attacker's log and one
    "damaged" entry to the target's; nothing else in the store changes.
    When they are the same robot, the damage is computed from the energy
    left after the attacker's cost, and both entries go to its log. *)
Theorem AttackRobot_energy_costs (s : RobotStorage) (id targetID : string) (ra rt : Robot) :
  robots s !! id = Some ra -> robots s !! targetID = Some rt ->
  (id <> targetID ->
   -2^63 <= Energy ra * 5 < 2^63 -> -2^63 <= Energy rt * 15 < 2^63 ->
   let ea := Energy ra - Z.quot (Energy ra * 5) 100 in
   let damage := Z.quot (Energy rt * 15) 100 in
   let et := clamp0 (Energy rt - damage) in
   AttackRobot id targetID s =
     (inr (ea, et, damage),
      mkStorage
        (<[targetID := set_Actions (Actions rt ++ [mkAction "damaged" ("Damaged by robot " +:+ id)])
                                   (set_Energy et rt)]>
         (<[id := set_Actions (Actions ra ++ [mkAction "attack" ("Attacked robot " +:+ targetID)])
                              (set_Energy ea ra)]> (robots s)))
        (items s))) /\
  (id = targetID ->
   -2^63 <= Energy ra * 15 < 2^63 ->
   let e1 := Energy ra - Z.quot (Energy ra * 5) 100 in
   let damage := Z.quot (e1 * 15) 100 in
   let e2 := clamp0 (e1 - damage) in
   AttackRobot id targetID s =
     (inr (e2, e2, damage),
      mkStorage
        (<[id := set_Actions (Actions ra ++ [mkAction "attack" ("Attacked robot " +:+ id);
                                             mkAction "damaged" ("Damaged by robot " +:+ id)])
                             (set_Energy e2 ra)]> (robots s))
        (items s))).
Proof.
  intros Ha Ht. split.
  - intros Hne Ha5 Ht15 ea damage et. rewrite (AttackRobot_ne s id targetID ra rt Hne Ha Ht). cbv zeta.
    rewrite (wrap64_small (Energy ra * 5)) by lia.
    rewrite (wrap64_small (Energy rt * 15)) by lia.
    rewrite (wrap64_small (Energy ra - _)) by (Z.to_euclidean_division_equations; lia).
    rewrite (wrap64_small (Energy rt - _)) by (Z.to_euclidean_division_equations; lia).
    reflexivity.
  - intros <- Ha15 e1 damage e2. rewrite Ht in Ha. injection Ha as <-.
    rewrite (AttackRobot_self s id rt Ht). cbv zeta.
    rewrite (wrap64_small (Energy rt * 5)) by lia.
    rewrite (wrap64_small (Energy rt - _)) by (Z.to_euclidean_division_equations; lia).
    assert (He1 : -2^63 <= e1 * 15 < 2^63) by (subst e1; Z.to_euclidean_division_equations; nia).
    fold e1. rewrite (wrap64_small (e1 * 15)) by lia.
    rewrite (wrap64_small (e1 - _)) by (Z.to_euclidean_division_equations; lia).
    reflexivity.
Qed.

(** Seeded robot1 (energy 100) attacks seeded robot2 (energy 100). *)
Lemma AttackRobot_energy_costs_witness :
  fst (AttackRobot "robot1" "robot2" Initialize) = inr (95, 85, 15).
Proof.
  destruct (AttackRobot_energy_costs Initialize "robot1" "robot2"
              (mkRobot (mkPosition 0 0) "north" 100 [] robot1_actions)
              (mkRobot (mkPosition 10 10) "south" 100 [] robot2_actions)
              ltac:(reflexivity) ltac:(reflexivity)) as [Hne _].
  rewrite (Hne ltac:(discriminate) ltac:(simpl; lia) ltac:(simpl; lia)). reflexivity.
Defined.

(** C1 fails for a self-attack: seeded robot1 attacking itself ends at
    energy 81 with [damage_dealt = 14], not 100 - 5 - 15 = 80 with 15. *)
Lemma AttackRobot_self_counterexample :
  fst (AttackRobot "robot1" "robot1" Initialize) = inr (81, 81, 14) /\
  14 <> 100 * 15 / 100 /\ 81 <> 100 - 100 * 5 / 100 - 100 * 15 / 100.
Proof. split; [vm_compute; reflexivity | split; vm_compute; discriminate]. Qed.

(** C3 (amended).  Starting from the seed, after any sequence of requests
    (Move, Pickup, Putdown, UpdateState, GetActions, Attack, successful
    or not) in which every energy sent to UpdateState is non-negative,
    every robot's energy is non-negative: Attack keeps the attacker's
    energy non-negative and clamps the target's.  UpdateState writes the
    requested energy as it is, without a clamp. *)
Theorem energy_nonneg_reachable (ops : list Op) :
  Forall update_energy_nonneg ops ->
  forall id r, robots (run_ops ops Initialize) !! id = Some r -> 0 <= Energy r.
Proof.
  intros Hops id r Hr.
  apply (run_ops_energies ops Initialize Hops Initialize_energies id r Hr).
Qed.

Lemma energy_nonneg_reachable_witness :
  exists r, robots (run_ops [OpUpdate "robot1" (Some (mkStateUpdateRequest (Some 3) None));
                             OpAttack "robot1" "robot2"; OpAttack "robot2" "robot1"] Initialize)
              !! "robot1" = Some r /\ 0 <= Energy r.
Proof.
  assert (Hops : Forall update_energy_nonneg
            [OpUpdate "robot1" (Some (mkStateUpdateRequest (Some 3) None));
             OpAttack "robot1" "robot2"; OpAttack "robot2" "robot1"])
    by (repeat constructor; simpl; lia).
  eexists. split; [vm_compute; reflexivity|].
  apply (energy_nonneg_reachable _ Hops "robot1"). vm_compute. reflexivity.
Defined.

(** C3 fails: UpdateState with energy -1 on the seeded robot1 leaves its
    energy at -1. *)
Lemma energy_negative_counterexample :
  fmap Energy (robots (run_ops [OpUpdate "robot1" (Some (mkStateUpdateRequest (Some (-1)) None))]
                              Initialize) !! "robot1") = Some (-1).
Proof. vm_compute. reflexivity. Qed.

(** C7.  For any two existing robots (the same one included) and any
    starting energies, a successful Attack leaves the target's energy
    non-negative, and a target that starts at energy 0 stays at 0. *)
Theorem AttackRobot_target_nonneg (s : RobotStorage) (id targetID : string) (ra rt : Robot) :
  robots s !! id = Some ra -> robots s !! targetID = Some rt ->
  exists ea et damage rt',
    fst (AttackRobot id targetID s) = inr (ea, et, damage) /\
    robots (snd (AttackRobot id targetID s)) !! targetID = Some rt' /\
    Energy rt' = et /\ 0 <= et /\ (Energy rt = 0 -> et = 0).
Proof.
  intros Ha Ht. destruct (decide (id = targetID)) as [<-|Hne].
  - rewrite Ht in Ha. injection Ha as <-.
    rewrite (AttackRobot_self s id rt Ht). simpl.
    do 4 eexists. split; [reflexivity|]. split; [rewrite lookup_insert_eq; reflexivity|].
    split; [reflexivity|]. split; [apply clamp0_range|].
    intros ->. reflexivity.
  - rewrite (AttackRobot_ne s id targetID ra rt Hne Ha Ht). simpl.
    do 4 eexists. split; [reflexivity|]. split; [rewrite lookup_insert_eq; reflexivity|].
    split; [reflexivity|]. split; [apply clamp0_range|].
    intros ->. reflexivity.
Qed.

Lemma AttackRobot_target_nonneg_witness :
  exists ea et damage rt',
    fst (AttackRobot "robot1" "robot2" (snd (UpdateState "robot2"
           (Some (mkStateUpdateRequest (Some 0) None)) Initialize))) = inr (ea, et, damage) /\
    robots (snd (AttackRobot "robot1" "robot2" (snd (UpdateState "robot2"
           (Some (mkStateUpdateRequest (Some 0) None)) Initialize)))) !! "robot2" = Some rt' /\
    Energy rt' = et /\ 0 <= et /\ (0 = 0 -> et = 0).
Proof.
  apply (AttackRobot_target_nonneg _ "robot1" "robot2"
           (mkRobot (mkPosition 0 0) "north" 100 [] robot1_actions)
           (mkRobot (mkPosition 10 10) "south" 0 []
              (robot2_actions ++ [mkAction "update" "Updated energy to 0"])));
    vm_compute; reflexivity.
Defined.

(** C8.  Every request that answers with an error (not found, bad
    request, or a runtime panic) leaves the whole store, every robot and
    the world's items, exactly as it was: each handler checks its
    preconditions before its first write. *)
Theorem failed_request_leaves_store (op : Op) (s : RobotStorage) (e : HErr) :
  fst (run_op op s) = inl e -> snd (run_op op s) = s.
Proof.
  destruct op; simpl; rewrite bind_unit; simpl.
  all: match goal with |- context [ fst ?r ] => destruct (fst r) eqn:Hf; intros Hx end;
       try discriminate.
  - eapply MoveRobot_error; exact Hf.
  - eapply PickupItem_error; exact Hf.
  - eapply PutdownItem_error; exact Hf.
  - eapply UpdateState_error; exact Hf.
  - apply GetActions_store.
  - eapply AttackRobot_error; exact Hf.
Qed.

Lemma failed_request_leaves_store_witness :
  fst (run_op (OpMove "robot1" (Some (mkMoveRequest "diagonal"))) Initialize)
    = inl (BadRequest "Invalid direction") /\
  snd (run_op (OpMove "robot1" (Some (mkMoveRequest "diagonal"))) Initialize) = Initialize.
Proof.
  split; [vm_compute; reflexivity|].
  apply (failed_request_leaves_store _ _ (BadRequest "Invalid direction")).
  vm_compute. reflexivity.
Defined.

(** C4 (code bug).  A move is not always a unit step: [robot.Position.Y++]
    overflows at the top of [int].  From the seed, UpdateState places
    robot1 at Y = 2^63 - 1; moving up then succeeds and leaves it at
    Y = -2^63, a jump of 2^64 - 1 instead of +1. *)
Theorem MoveRobot_up_overflow_wraps :
  fst (MoveRobot "robot1" (Some (mkMoveRequest "up"))
         (run_ops [OpUpdate "robot1" (Some (mkStateUpdateRequest None (Some (mkPosition 0 (2^63 - 1)))))]
                  Initialize))
    = inr (mkPosition 0 (-2^63)) /\
  -2^63 <> (2^63 - 1) + 1.
Proof. split; [vm_compute; reflexivity | lia]. Qed.

(** C5.  In every state reachable from the seed by handler calls, for an
    existing robot and an item lying in the world, Pickup followed by
    Putdown of that item by that robot succeeds, both answer with the
    expected inventories, and the final store differs from the initial one
    only in that robot's log, which has gained exactly the two entries
    "pickup" and "putdown": its inventory and the world's item set are
    back to what they were. *)
Theorem pickup_putdown_roundtrip (ops : list Op) (id itemID : string) (r : Robot) :
  robots (run_ops ops Initialize) !! id = Some r ->
  itemID ∈ items (run_ops ops Initialize) ->
  exists s1,
    PickupItem id itemID (run_ops ops Initialize) = (inr (Inventory r ++ [itemID]), s1) /\
    PutdownItem id itemID s1 =
      (inr (Inventory r),
       mkStorage (<[id := set_Actions (Actions r ++ [mkAction "pickup" ("Picked up item " +:+ itemID);
                                                     mkAction "putdown" ("Put down item " +:+ itemID)]) r]>
                    (robots (run_ops ops Initialize)))
                 (items (run_ops ops Initialize))).
Proof.
  intros Hr Hi.
  destruct (run_ops_items_exclusive ops Initialize Initialize_items_exclusive) as [Hex _].
  pose proof (Hex itemID id r Hi Hr) as Hnot.
  set (s := run_ops ops Initialize) in *.
  eexists. split; [apply (PickupItem_ok s id itemID r Hr Hi)|].
  erewrite PutdownItem_ok; [| simpl; apply lookup_insert_eq |].
  - simpl. f_equal. f_equal.
    + rewrite insert_insert_eq. f_equal. destruct r; simpl.
      unfold set_Actions, set_Inventory; simpl. rewrite <- app_assoc. reflexivity.
    + apply set_eq. intros x. rewrite elem_of_union, elem_of_difference, elem_of_singleton.
      split; [intros [->|[? ?]]; assumption|].
      intros Hx. destruct (decide (x = itemID)); [left; assumption | right; split; assumption].
  - simpl. rewrite putdown_scan_filter, filter_app. simpl.
    rewrite (bool_decide_true (itemID ∈ Inventory r ++ [itemID])) by set_solver.
    rewrite filter_cons_False by (intros Hc; apply Hc; reflexivity).
    f_equal. simpl. rewrite filter_nil, app_nil_r.
    clear -Hnot. induction (Inventory r) as [|y ys IH]; [reflexivity|].
    rewrite filter_cons_True by set_solver. rewrite IH by set_solver. reflexivity.
Qed.

Lemma pickup_putdown_roundtrip_witness :
  exists s1,
    PickupItem "robot1" "item1" (run_ops [] Initialize) = (inr ([] ++ ["item1"]), s1) /\
    PutdownItem "robot1" "item1" s1 =
      (inr [],
       mkStorage (<[ "robot1" := set_Actions (robot1_actions ++ [mkAction "pickup" ("Picked up item " +:+ "item1");
                                                                mkAction "putdown" ("Put down item " +:+ "item1")])
                                  (mkRobot (mkPosition 0 0) "north" 100 [] robot1_actions)]>
                    (robots (run_ops [] Initialize)))
                 (items (run_ops [] Initialize))).
Proof.
  apply (pickup_putdown_roundtrip [] "robot1" "item1" (mkRobot (mkPosition 0 0) "north" 100 [] robot1_actions)).
  - reflexivity.
  - simpl. set_solver.
Defined.

(** C6 (amended).  For an existing robot and a well-formed request,
    UpdateState succeeds; a present energy or position replaces the
    robot's value, an absent one leaves it as it was, direction and
    inventory are untouched, and the log gains one "update" entry per
    PRESENT field, energy first and position second.  The entry is
    written whenever the field is present, also when the new value equals
    the old one. *)
Theorem UpdateState_partial (s : RobotStorage) (id : string) (r : Robot) (req : StateUpdateRequest) :
  robots s !! id = Some r ->
  exists r',
    UpdateState id (Some req) s = (inr r', mkStorage (<[id := r']> (robots s)) (items s)) /\
    Energy r' = default (Energy r) (ReqEnergy req) /\
    Position' r' = default (Position' r) (ReqPosition req) /\
    Direction r' = Direction r /\
    Inventory r' = Inventory r /\
    Actions r' = Actions r ++
      match ReqEnergy req with
      | Some e => [mkAction "update" ("Updated energy to " +:+ pretty e)]
      | None => []
      end ++
      match ReqPosition req with
      | Some p => [mkAction "update"
                     ("Updated position to (" +:+ pretty (X p) +:+ "," +:+ pretty (Y p) +:+ ")")]
      | None => []
      end.
Proof.
  intros Hr. eexists. split; [apply (UpdateState_ok s id r req Hr)|].
  simpl. repeat split.
Qed.

Lemma UpdateState_partial_witness :
  exists r',
    UpdateState "robot1" (Some (mkStateUpdateRequest (Some 75) (Some (mkPosition 5 8)))) Initialize =
      (inr r', mkStorage (<[ "robot1" := r']> (robots Initialize)) (items Initialize)) /\
    Energy r' = 75 /\ Position' r' = mkPosition 5 8 /\ Direction r' = "north" /\
    Inventory r' = [] /\
    Actions r' = robot1_actions ++ [mkAction "update" ("Updated energy to " +:+ pretty 75)] ++
                   [mkAction "update" ("Updated position to (" +:+ pretty 5 +:+ "," +:+ pretty 8 +:+ ")")].
Proof.
  exact (UpdateState_partial Initialize "robot1" (mkRobot (mkPosition 0 0) "north" 100 [] robot1_actions)
           (mkStateUpdateRequest (Some 75) (Some (mkPosition 5 8))) eq_refl).
Defined.

(** C6 is too strong when "actually changed" is read literally: setting
    robot1's energy to the 100 it already has changes no field but still
    appends an "update" entry. *)
Lemma UpdateState_unchanged_counterexample :
  exists r',
    fst (UpdateState "robot1" (Some (mkStateUpdateRequest (Some 100) None)) Initialize) = inr r' /\
    robots Initialize !! "robot1" = Some (mkRobot (mkPosition 0 0) "north" 100 [] robot1_actions) /\
    Energy r' = 100 /\ Position' r' = mkPosition 0 0 /\
    Actions r' = robot1_actions ++ [mkAction "update" "Updated energy to 100"].
Proof. eexists. split; [vm_compute; reflexivity|]. vm_compute. repeat split. Qed.

(** C10.  For an existing robot whose inventory holds the item, possibly
    several times, Putdown succeeds and the new inventory is the old one
    with every occurrence of the item removed and the other items kept in
    their order: it no longer contains the item, it is a sublist of the old
    inventory, and it holds every other item the old one held. *)
Theorem PutdownItem_removes_every_copy (s : RobotStorage) (id itemID : string) (r : Robot) :
  robots s !! id = Some r ->
  itemID ∈ Inventory r ->
  PutdownItem id itemID s =
    (inr (filter (fun item => item <> itemID) (Inventory r)),
     mkStorage (<[id := set_Actions (Actions r ++ [mkAction "putdown" ("Put down item " +:+ itemID)])
                          (set_Inventory (filter (fun item => item <> itemID) (Inventory r)) r)]> (robots s))
               ({[itemID]} ∪ items s)) /\
  (itemID ∉ filter (fun item => item <> itemID) (Inventory r)) /\
  sublist (filter (fun item => item <> itemID) (Inventory r)) (Inventory r) /\
  (forall y, y <> itemID -> (y ∈ filter (fun item => item <> itemID) (Inventory r) <-> y ∈ Inventory r)).
Proof.
  intros Hr Hin. split; [|split; [|split]].
  - apply PutdownItem_ok; [exact Hr|].
    rewrite putdown_scan_filter. simpl. rewrite bool_decide_true by exact Hin. reflexivity.
  - rewrite list_elem_of_filter. intros [Hc _]. apply Hc. reflexivity.
  - apply sublist_filter.
  - intros y Hy. rewrite list_elem_of_filter. tauto.
Qed.

Lemma PutdownItem_removes_every_copy_witness :
  PutdownItem "robot1" "item1"
    (mkStorage {[ "robot1" := mkRobot (mkPosition 0 0) "north" 100 ["item1"; "item2"; "item1"; "item3"] [] ]} ∅) =
    (inr ["item2"; "item3"],
     mkStorage {[ "robot1" := mkRobot (mkPosition 0 0) "north" 100 ["item2"; "item3"]
                                [mkAction "putdown" ("Put down item " +:+ "item1")] ]}
               ({[ "item1" ]} ∪ ∅)) /\
  ("item1" ∉ ["item2"; "item3"]) /\
  sublist ["item2"; "item3"] ["item1"; "item2"; "item1"; "item3"] /\
  (forall y, y <> "item1" -> (y ∈ ["item2"; "item3"] <-> y ∈ ["item1"; "item2"; "item1"; "item3"])).
Proof.
  exact (PutdownItem_removes_every_copy
           (mkStorage {[ "robot1" := mkRobot (mkPosition 0 0) "north" 100 ["item1"; "item2"; "item1"; "item3"] [] ]} ∅)
           "robot1" "item1" (mkRobot (mkPosition 0 0) "north" 100 ["item1"; "item2"; "item1"; "item3"] [])
           eq_refl ltac:(set_solver)).
Defined.

(** C2 (code bug).  Pagination is not total: on an empty log the page is
    not clamped, [(page-1)*size] overflows [int], and the loop reads
    [robot.Actions] at a negative index.  With page = 2^62 + 1 and
    size = 2 the handler panics instead of answering with an empty slice. *)
Theorem GetActions_page_overflow_panics :
  fst (GetActions "localhost" "robot3" (Text (Some (2^62 + 1))) (Text (Some 2))
         (mkStorage {[ "robot3" := mkRobot (mkPosition 0 0) "north" 100 [] [] ]} ∅))
    = inl (Panic "index out of range").
Proof. reflexivity. Qed.

(** C9 (code bug).  For a robot with an empty log the slice arithmetic
    does not stay within bounds: page = 3 and size = 2^62 give
    [startIndex = (3-1)*2^62], which wraps to -2^63, and the loop panics
    on [robot.Actions[-2^63]].  (Without overflow the claimed answer is
    what [paginate_empty_no_overflow] computes.) *)
Theorem GetActions_empty_log_panics :
  fst (GetActions "localhost" "robot3" (Text (Some 3)) (Text (Some (2^62)))
         (mkStorage {[ "robot3" := mkRobot (mkPosition 0 0) "north" 100 [] [] ]} ∅))
    = inl (Panic "index out of range").
Proof. reflexivity. Qed.

(** * Further properties of the code *)

(** X1. On a log of [n] entries, [0 < n < 2^62], with normalised [page] and
    [size]: the page is clamped to [totalPages = ceil(n / size)], the
    answer carries exactly the entries at indices
    [(page-1)*size, min(page*size, n))] in log order, [hasNext] and
    [hasPrevious] compare the page with [totalPages] and 1, and the "next"
    and "previous" links appear exactly then, pointing to page+1 and page-1
    with the same size. *)
Lemma paginate_nonempty (host id : string) (acts : list Action) (pageQ sizeQ : QueryValue) (page size : Z) :
  query_atoi pageQ 1 = Some page -> 1 <= page ->
  query_atoi sizeQ 5 = Some size -> 1 <= size ->
  (0 < length acts)%nat -> Z.of_nat (length acts) < 2^62 ->
  let n := Z.of_nat (length acts) in
  let tp := ceil_div n size in
  let p := Z.min page tp in
  exists pas,
    paginate host id acts pageQ sizeQ =
      inr (mkPaginatedActions (mkPageInfo p size n tp (p <? tp) (1 <? p)) pas
             ((if p <? tp then [mkLink "next" (actions_href id (p + 1) size)] else []) ++
              (if 1 <? p then [mkLink "previous" (actions_href id (p - 1) size)] else []))) /\
    map AwAction pas = take (Z.to_nat (Z.min (p * size) n - (p - 1) * size))
                            (drop (Z.to_nat ((p - 1) * size)) acts).
Proof.
  exact (paginate_slice host id acts pageQ sizeQ page size).
Qed.

(** Seeded robot1's 7 entries, page 2 of size 5: entries 6 and 7. *)
Lemma paginate_nonempty_witness :
  exists pas,
    paginate "localhost" "robot1" robot1_actions (Text (Some 2)) (Text (Some 5)) =
      inr (mkPaginatedActions (mkPageInfo 2 5 7 2 false true) pas
             [mkLink "previous" (actions_href "robot1" 1 5)]) /\
    map AwAction pas = take 2 (drop 5 robot1_actions).
Proof.
  exact (paginate_nonempty "localhost" "robot1" robot1_actions (Text (Some 2)) (Text (Some 5)) 2 5
           eq_refl ltac:(lia) eq_refl ltac:(lia) ltac:(simpl; lia) ltac:(simpl; lia)).
Defined.

(** Every request keeps the set of robots, and it only appends to a robot's
    log, at most two entries per request ([UpdateState] may log a move and a
    state update; [AttackRobot] logs "attack" and "damaged"). *)
Theorem run_op_logs_append_only (op : Op) (s : RobotStorage) (k : string) :
  (robots s !! k = None <-> robots (snd (run_op op s)) !! k = None) /\
  (forall r r', robots s !! k = Some r -> robots (snd (run_op op s)) !! k = Some r' ->
     exists suf, Actions r' = Actions r ++ suf /\ (length suf <= 2)%nat).
Proof.
  exact (run_op_log_step op s k).
Qed.

(** Robot1 attacking robot2 on the seeded store. *)
Lemma run_op_logs_append_only_witness :
  (robots Initialize !! "robot2" = None <->
   robots (snd (run_op (OpAttack "robot1" "robot2") Initialize)) !! "robot2" = None) /\
  (forall r r', robots Initialize !! "robot2" = Some r ->
     robots (snd (run_op (OpAttack "robot1" "robot2") Initialize)) !! "robot2" = Some r' ->
     exists suf, Actions r' = Actions r ++ suf /\ (length suf <= 2)%nat).
Proof.
  exact (run_op_logs_append_only (OpAttack "robot1" "robot2") Initialize "robot2").
Defined.

(** From the seeded store, whatever requests are served: the robots are
    exactly robot1 and robot2, and each log holds between 1 and
    [7 + 2 * number of requests] entries. *)
Theorem reachable_robots_logs (ops : list Op) (k : string) :
  (robots (run_ops ops Initialize) !! k <> None <-> k = "robot1" \/ k = "robot2") /\
  (forall r, robots (run_ops ops Initialize) !! k = Some r ->
     (1 <= length (Actions r) <= 7 + 2 * length ops)%nat).
Proof.
  exact (reachable_logs ops k).
Qed.

(** After one move of robot1. *)
Lemma reachable_robots_logs_witness :
  (robots (run_ops [OpMove "robot1" (Some (mkMoveRequest "up"))] Initialize) !! "robot1" <> None <->
   "robot1" = "robot1" \/ "robot1" = "robot2") /\
  (forall r, robots (run_ops [OpMove "robot1" (Some (mkMoveRequest "up"))] Initialize) !! "robot1" = Some r ->
     (1 <= length (Actions r) <= 7 + 2 * length [OpMove "robot1" (Some (mkMoveRequest "up"))])%nat).
Proof.
  exact (reachable_robots_logs [OpMove "robot1" (Some (mkMoveRequest "up"))] "robot1").
Defined.

(** From the seeded store, whatever requests are served, items are neither
    created nor lost: an item lies in the world or in some inventory exactly
    when it is item1, item2 or item3; no item is in the world and in an
    inventory, or in two inventories; and no inventory holds an item twice. *)
Theorem reachable_items (ops : list Op) :
  (forall x, held (run_ops ops Initialize) x <-> x = "item1" \/ x = "item2" \/ x = "item3") /\
  items_exclusive (run_ops ops Initialize) /\
  (forall k r, robots (run_ops ops Initialize) !! k = Some r -> NoDup (Inventory r)).
Proof.
  split; [|split].
  - intros x. rewrite <- run_ops_held. apply held_Initialize.
  - apply run_ops_items_exclusive. apply Initialize_items_exclusive.
  - apply run_ops_inv_nodup; [apply Initialize_items_exclusive | apply Initialize_inv_nodup].
Qed.

(** After robot1 picks up item1. *)
Lemma reachable_items_witness :
  (forall x, held (run_ops [OpPickup "robot1" "item1"] Initialize) x <->
     x = "item1" \/ x = "item2" \/ x = "item3") /\
  items_exclusive (run_ops [OpPickup "robot1" "item1"] Initialize) /\
  (forall k r, robots (run_ops [OpPickup "robot1" "item1"] Initialize) !! k = Some r ->
     NoDup (Inventory r)).
Proof.
  exact (reachable_items [OpPickup "robot1" "item1"]).
Defined.

(** On any store reached from the seed by fewer than [2^60] requests,
    [GetActions] never panics, whatever the page and size parameters: it
    answers a page when the robot exists and 404 "Robot not found" when it
    does not. *)
Theorem GetActions_reachable_no_panic (ops : list Op) (host id : string) (pageQ sizeQ : QueryValue) :
  Z.of_nat (length ops) < 2^60 ->
  (robots (run_ops ops Initialize) !! id <> None ->
   exists res, fst (GetActions host id pageQ sizeQ (run_ops ops Initialize)) = inr res) /\
  (robots (run_ops ops Initialize) !! id = None ->
   fst (GetActions host id pageQ sizeQ (run_ops ops Initialize)) = inl (NotFound "Robot not found")).
Proof.
  intros Hlen. split.
  - intros Hex. destruct (robots (run_ops ops Initialize) !! id) as [r|] eqn:Hr; [|congruence].
    destruct (reachable_logs ops id) as [_ L]. pose proof (L r Hr) as Lr.
    destruct (paginate_total host id (Actions r) pageQ sizeQ) as [res Hres]; [lia | lia |].
    exists res. cbv [GetActions bind GetRobot deref ret fail]. rewrite Hr. cbv beta iota.
    rewrite Hr. cbv beta iota. rewrite Hres. reflexivity.
  - intros Hr. cbv [GetActions bind GetRobot fail]. rewrite Hr. reflexivity.
Qed.

(** No request served yet; page "abc" of size -3 on robot1, and a missing
    robot3. *)
Lemma GetActions_reachable_no_panic_witness :
  (exists res, fst (GetActions "localhost" "robot1" (Text None) (Text (Some (-3))) (run_ops [] Initialize)) = inr res) /\
  fst (GetActions "localhost" "robot3" (Text None) (Text (Some (-3))) (run_ops [] Initialize)) =
    inl (NotFound "Robot not found").
Proof.
  split.
  - apply (proj1 (GetActions_reachable_no_panic [] "localhost" "robot1" (Text None) (Text (Some (-3)))
                    ltac:(simpl; lia))).
    vm_compute. discriminate.
  - apply (proj2 (GetActions_reachable_no_panic [] "localhost" "robot3" (Text None) (Text (Some (-3)))
                    ltac:(simpl; lia))).
    vm_compute. reflexivity.
Defined.

(** A move followed by the opposite move brings the robot back to where it
    was (no wrap-around for coordinates in [int]), both moves logged. *)
Theorem MoveRobot_round_trip (s : RobotStorage) (id d d' : string) (r : Robot) :
  robots s !! id = Some r ->
  -2^63 <= X (Position' r) < 2^63 -> -2^63 <= Y (Position' r) < 2^63 ->
  (d, d') = ("up", "down") \/ (d, d') = ("down", "up") \/
  (d, d') = ("left", "right") \/ (d, d') = ("right", "left") ->
  exists p1 s1,
    MoveRobot id (Some (mkMoveRequest d)) s = (inr p1, s1) /\
    MoveRobot id (Some (mkMoveRequest d')) s1 =
      (inr (Position' r),
       mkStorage (<[id := set_Actions (Actions r ++ [mkAction "move" ("Moved " +:+ d);
                                                     mkAction "move" ("Moved " +:+ d')]) r]> (robots s))
                 (items s)).
Proof.
  intros Hr HX HY Hdd.
  destruct Hdd as [Hdd|[Hdd|[Hdd|Hdd]]]; injection Hdd as -> ->; eexists;
    (eapply MoveRobot_twice; [exact Hr | reflexivity | reflexivity |]);
    revert HX HY; destruct (Position' r) as [x y]; simpl; intros HX HY;
    rewrite ?wrap64_add_sub, ?wrap64_sub_add by assumption; reflexivity.
Qed.

(** Seeded robot1 moves up then down. *)
Lemma MoveRobot_round_trip_witness :
  exists p1 s1,
    MoveRobot "robot1" (Some (mkMoveRequest "up")) Initialize = (inr p1, s1) /\
    MoveRobot "robot1" (Some (mkMoveRequest "down")) s1 =
      (inr (mkPosition 0 0),
       mkStorage (<[ "robot1" := set_Actions (robot1_actions ++ [mkAction "move" ("Moved " +:+ "up");
                                                               mkAction "move" ("Moved " +:+ "down")])
                                 (mkRobot (mkPosition 0 0) "north" 100 [] robot1_actions)]> (robots Initialize))
                 (items Initialize)).
Proof.
  apply (MoveRobot_round_trip Initialize "robot1" "up" "down"
           (mkRobot (mkPosition 0 0) "north" 100 [] robot1_actions)).
  - reflexivity.
  - simpl; lia.
  - simpl; lia.
  - left; reflexivity.
Defined.

(** While energies are non-negative and [15 * energy] fits in [int], no
    request other than [UpdateState] raises a robot's energy, and none makes
    it negative. *)
Theorem run_op_energy_nonincreasing (op : Op) (s : RobotStorage) :
  (forall id req, op <> OpUpdate id req) ->
  (forall k r, robots s !! k = Some r -> 0 <= Energy r /\ Energy r * 15 < 2^63) ->
  forall k r r', robots s !! k = Some r -> robots (snd (run_op op s)) !! k = Some r' ->
    0 <= Energy r' <= Energy r.
Proof.
  intros Hop H k r r' Hk Hk'. pose proof (H k r Hk) as [He0 He1].
  destruct op as [id req|id it|id it|id req|host id p q|id t]; simpl in Hk'; rewrite bind_unit in Hk'; simpl in Hk'.
  - destruct (MoveRobot_cases s id req) as [Hs|(ra & ra' & Hr & He & _ & Hs)]; rewrite Hs in Hk'; simpl in Hk'.
    + rewrite Hk in Hk'. injection Hk' as <-. lia.
    + rewrite lookup_insert_Some in Hk'. destruct Hk' as [[<- <-]|[_ Hk']]; [|rewrite Hk in Hk'; injection Hk' as <-; lia].
      rewrite Hk in Hr. injection Hr as <-. lia.
  - destruct (PickupItem_cases s id it) as [Hs|(ra & Hr & _ & Hs)]; rewrite Hs in Hk'; simpl in Hk'.
    + rewrite Hk in Hk'. injection Hk' as <-. lia.
    + rewrite lookup_insert_Some in Hk'. destruct Hk' as [[<- <-]|[_ Hk']]; [|rewrite Hk in Hk'; injection Hk' as <-; lia].
      rewrite Hk in Hr. injection Hr as <-. simpl. lia.
  - destruct (PutdownItem_cases s id it) as [Hs|(ra & inv & Hr & _ & Hs)]; rewrite Hs in Hk'; simpl in Hk'.
    + rewrite Hk in Hk'. injection Hk' as <-. lia.
    + rewrite lookup_insert_Some in Hk'. destruct Hk' as [[<- <-]|[_ Hk']]; [|rewrite Hk in Hk'; injection Hk' as <-; lia].
      rewrite Hk in Hr. injection Hr as <-. simpl. lia.
  - exfalso. exact (Hop id req eq_refl).
  - rewrite GetActions_store in Hk'. rewrite Hk in Hk'. injection Hk' as <-. lia.
  - destruct (AttackRobot_cases s id t) as [Hs|[(ra & rt & Hne & Ha & Ht & Hs)|(ra & <- & Hr & Hs)]];
      rewrite Hs in Hk'; simpl in Hk'.
    + rewrite Hk in Hk'. injection Hk' as <-. lia.
    + rewrite !lookup_insert_Some in Hk'.
      destruct Hk' as [[<- <-]|[_ [[<- <-]|[_ Hk']]]]; simpl.
      * rewrite Hk in Ht. injection Ht as <-. apply target_damage_le; lia.
      * rewrite Hk in Ha. injection Ha as <-. apply attacker_cost_le; lia.
      * rewrite Hk in Hk'. injection Hk' as <-. lia.
    + rewrite lookup_insert_Some in Hk'. destruct Hk' as [[<- <-]|[_ Hk']]; [|rewrite Hk in Hk'; injection Hk' as <-; lia].
      rewrite Hk in Hr. injection Hr as <-. simpl.
      pose proof (attacker_cost_le (Energy r) ltac:(lia) ltac:(lia)) as He.
      pose proof (target_damage_le (wrap64 (Energy r - Z.quot (wrap64 (Energy r * 5)) 100)) ltac:(lia) ltac:(lia)).
      lia.
Qed.


(** Robot1 attacking robot2 on the seeded store. *)
Lemma run_op_energy_nonincreasing_witness :
  exists r', robots (snd (run_op (OpAttack "robot1" "robot2") Initialize)) !! "robot2" = Some r' /\
             0 <= Energy r' <= 100.
Proof.
  destruct (robots (snd (run_op (OpAttack "robot1" "robot2") Initialize)) !! "robot2") as [r'|] eqn:E;
    [|vm_compute in E; discriminate].
  exists r'. split; [reflexivity|].
  exact (run_op_energy_nonincreasing (OpAttack "robot1" "robot2") Initialize
           ltac:(intros id req; discriminate)
           ltac:(intros k r Hk; apply Initialize_lookup in Hk;
                 destruct Hk as [[_ ->]|[_ ->]]; simpl; lia)
           "robot2" (mkRobot (mkPosition 10 10) "south" 100 [] robot2_actions) r' eq_refl E).
Defined.

(** For two distinct robots: when [5 * energy] of the attacker lies in
    [2^63, 2^64 - 100], it wraps to a negative [int] of magnitude at least
    100 and the attack raises the attacker's energy; when [15 * energy] of
    the target lies in [2^63, 2^64 - 100], the damage is negative and the
    attack raises the target's energy.  (Beyond 2^64 - 100 the wrapped
    product is no longer that negative, so these bounds are needed.) *)
Theorem AttackRobot_overflow_raises_energy (s : RobotStorage) (id targetID : string) (ra rt : Robot) :
  id <> targetID -> robots s !! id = Some ra -> robots s !! targetID = Some rt ->
  (2^63 <= Energy ra * 5 <= 2^64 - 100 ->
   exists ea et damage, fst (AttackRobot id targetID s) = inr (ea, et, damage) /\ Energy ra < ea) /\
  (2^63 <= Energy rt * 15 <= 2^64 - 100 ->
   exists ea et damage, fst (AttackRobot id targetID s) = inr (ea, et, damage) /\
     damage < 0 /\ Energy rt < et).
Proof.
  intros Hne Ha Ht. rewrite (AttackRobot_ne s id targetID ra rt Hne Ha Ht). simpl. split.
  - intros Hov. do 3 eexists. split; [reflexivity|]. apply attacker_overflow_gain. exact Hov.
  - intros Hov. do 3 eexists. split; [reflexivity|]. apply target_overflow_gain. exact Hov.
Qed.

(** Energies [2 * 10^18] (attacker) and [7 * 10^17] (target). *)
Lemma AttackRobot_overflow_raises_energy_witness :
  (exists ea et damage,
     fst (AttackRobot "robot1" "robot2"
            (mkStorage (<[ "robot1" := mkRobot (mkPosition 0 0) "north" 2000000000000000000 [] [] ]>
                       (<[ "robot2" := mkRobot (mkPosition 10 10) "south" 700000000000000000 [] [] ]> ∅)) ∅))
       = inr (ea, et, damage) /\ 2000000000000000000 < ea) /\
  (exists ea et damage,
     fst (AttackRobot "robot1" "robot2"
            (mkStorage (<[ "robot1" := mkRobot (mkPosition 0 0) "north" 2000000000000000000 [] [] ]>
                       (<[ "robot2" := mkRobot (mkPosition 10 10) "south" 700000000000000000 [] [] ]> ∅)) ∅))
       = inr (ea, et, damage) /\ damage < 0 /\ 700000000000000000 < et).
Proof.
  pose proof (AttackRobot_overflow_raises_energy
                (mkStorage (<[ "robot1" := mkRobot (mkPosition 0 0) "north" 2000000000000000000 [] [] ]>
                           (<[ "robot2" := mkRobot (mkPosition 10 10) "south" 700000000000000000 [] [] ]> ∅)) ∅)
                "robot1" "robot2"
                (mkRobot (mkPosition 0 0) "north" 2000000000000000000 [] [])
                (mkRobot (mkPosition 10 10) "south" 700000000000000000 [] [])
                ltac:(discriminate) eq_refl eq_refl) as [Ha Ht].
  split; [apply Ha | apply Ht]; simpl; lia.
Defined.

(** Once a robot has picked an item up, the item is no longer in the world:
    a second pickup of it, by any existing robot (the same one included),
    answers 404 "Item not found" and leaves the store as it is. *)
Theorem PickupItem_twice_refused (s : RobotStorage) (a b itemID : string) (inv : list string) :
  fst (PickupItem a itemID s) = inr inv ->
  robots (snd (PickupItem a itemID s)) !! b <> None ->
  PickupItem b itemID (snd (PickupItem a itemID s)) =
    (inl (NotFound "Item not found"), snd (PickupItem a itemID s)).
Proof.
  intros Hok Hb. destruct (robots s !! a) as [r|] eqn:Hr.
  - destruct (decide (itemID ∈ items s)) as [Hi|Hi].
    + rewrite (PickupItem_ok s a itemID r Hr Hi) in *. simpl in *.
      destruct (<[a := _]> (robots s) !! b) as [rb|] eqn:Hrb; [|congruence].
      cbv [PickupItem bind GetRobot ItemExists fail]. simpl. rewrite Hrb.
      rewrite bool_decide_false by set_solver. reflexivity.
    + cbv [PickupItem bind GetRobot ItemExists fail] in Hok. rewrite Hr in Hok.
      rewrite bool_decide_false in Hok by exact Hi. discriminate.
  - cbv [PickupItem bind GetRobot fail] in Hok. rewrite Hr in Hok. discriminate.
Qed.

(** Robot1 picks item1 up, then robot2 tries. *)
Lemma PickupItem_twice_refused_witness :
  fst (PickupItem "robot1" "item1" Initialize) = inr ["item1"] /\
  PickupItem "robot2" "item1" (snd (PickupItem "robot1" "item1" Initialize)) =
    (inl (NotFound "Item not found"), snd (PickupItem "robot1" "item1" Initialize)).
Proof.
  split; [vm_compute; reflexivity|].
  apply (PickupItem_twice_refused Initialize "robot1" "robot2" "item1" ["item1"]).
  - vm_compute. reflexivity.
  - vm_compute. discriminate.
Defined.

(** For a fixed page size, fetching pages [1 .. totalPages] and concatenating
    their entries gives back the whole log, in order, without gaps or
    repetitions. *)
Theorem paginate_pages_cover_log (host id : string) (acts : list Action) (size : Z) :
  1 <= size < 2^63 -> (0 < length acts)%nat -> Z.of_nat (length acts) < 2^62 ->
  concat (map (fun i => page_actions host id acts size (Z.of_nat i))
              (seq 1 (Z.to_nat (ceil_div (Z.of_nat (length acts)) size)))) = acts.
Proof.
  intros Hs H0 H1.
  assert (Hc : size * ceil_div (Z.of_nat (length acts)) size <= Z.of_nat (length acts) + size - 1
               < size * ceil_div (Z.of_nat (length acts)) size + size).
  { unfold ceil_div. pose proof (Z.div_mod (Z.of_nat (length acts) + size - 1) size ltac:(lia)).
    pose proof (Z.mod_pos_bound (Z.of_nat (length acts) + size - 1) size ltac:(lia)). lia. }
  rewrite pages_prefix by (try lia; rewrite Z2Nat.id; nia).
  rewrite Z2Nat.id by nia. rewrite Z.min_r by nia.
  rewrite Nat2Z.id. apply take_ge. lia.
Qed.

(** Seeded robot1's 7 entries in pages of 3. *)
Lemma paginate_pages_cover_log_witness :
  concat (map (fun i => page_actions "localhost" "robot1" robot1_actions 3 (Z.of_nat i))
              (seq 1 (Z.to_nat (ceil_div (Z.of_nat (length robot1_actions)) 3)))) = robot1_actions.
Proof.
  apply paginate_pages_cover_log; simpl; lia.
Defined.

(** After a successful move, [GetStatus] reports the new position with the
    energy and inventory unchanged, links to the robot's status and to the
    first page of 5 actions, and writes nothing. *)
Theorem GetStatus_after_move (s : RobotStorage) (host : string) (tls : bool) (id d : string) (r : Robot)
    (step : Position -> Position) :
  robots s !! id = Some r -> move_case d = Some step ->
  fst (MoveRobot id (Some (mkMoveRequest d)) s) = inr (step (Position' r)) /\
  GetStatus host tls id (snd (MoveRobot id (Some (mkMoveRequest d)) s)) =
    (inr (mkRobotStatus id (step (Position' r)) (Energy r) (Inventory r)
            [mkLink "self" ((if tls then "https" else "http") +:+ "://" +:+ host +:+ "/robot/" +:+ id +:+ "/status");
             mkLink "actions" ((if tls then "https" else "http") +:+ "://" +:+ host +:+ "/robot/" +:+ id
                               +:+ "/actions?page=1&size=5")]),
     snd (MoveRobot id (Some (mkMoveRequest d)) s)).
Proof.
  intros Hr Hd. rewrite (MoveRobot_ok s id d r step Hr Hd). simpl. split; [reflexivity|].
  cbv [GetStatus bind GetRobot ret]. simpl. rewrite lookup_insert_eq. reflexivity.
Qed.


(** Seeded robot1 moves right; status over plain HTTP. *)
Lemma GetStatus_after_move_witness :
  fst (MoveRobot "robot1" (Some (mkMoveRequest "right")) Initialize) =
    inr (mkPosition (wrap64 (0 + 1)) 0) /\
  GetStatus "localhost" false "robot1" (snd (MoveRobot "robot1" (Some (mkMoveRequest "right")) Initialize)) =
    (inr (mkRobotStatus "robot1" (mkPosition (wrap64 (0 + 1)) 0) 100 []
            [mkLink "self" ("http" +:+ "://" +:+ "localhost" +:+ "/robot/" +:+ "robot1" +:+ "/status");
             mkLink "actions" ("http" +:+ "://" +:+ "localhost" +:+ "/robot/" +:+ "robot1"
                               +:+ "/actions?page=1&size=5")]),
     snd (MoveRobot "robot1" (Some (mkMoveRequest "right")) Initialize)).
Proof.
  exact (GetStatus_after_move Initialize "localhost" false "robot1" "right"
           (mkRobot (mkPosition 0 0) "north" 100 [] robot1_actions)
           (fun p => mkPosition (wrap64 (X p + 1)) (Y p)) eq_refl eq_refl).
Defined.

(** A page parameter that is not a decimal [int] or is below 1 is answered as
    if it were absent (page 1); likewise a bad size is answered as the
    default size 5. *)
Theorem paginate_default_params (host id : string) (acts : list Action) (pageQ sizeQ : QueryValue) :
  ((query_atoi pageQ 1 = None \/ exists p, query_atoi pageQ 1 = Some p /\ p < 1) ->
   paginate host id acts pageQ sizeQ = paginate host id acts Missing sizeQ) /\
  ((query_atoi sizeQ 5 = None \/ exists z, query_atoi sizeQ 5 = Some z /\ z < 1) ->
   paginate host id acts pageQ sizeQ = paginate host id acts pageQ Missing).
Proof.
  split; intros Hbad; rewrite paginate_norm; symmetry; rewrite paginate_norm; symmetry.
  - replace (norm_page pageQ) with (norm_page Missing); [reflexivity|].
    unfold norm_page. destruct Hbad as [->|(p & -> & Hp)]; [reflexivity|].
    rewrite (proj2 (Z.ltb_lt p 1) Hp). reflexivity.
  - replace (norm_size sizeQ) with (norm_size Missing); [reflexivity|].
    unfold norm_size. destruct Hbad as [->|(z & -> & Hz)]; [reflexivity|].
    rewrite (proj2 (Z.ltb_lt z 1) Hz). reflexivity.
Qed.

(** Page "abc" on robot1's log: the same answer as without a page. *)
Lemma paginate_default_params_witness :
  paginate "localhost" "robot1" robot1_actions (Text None) (Text (Some 2)) =
    paginate "localhost" "robot1" robot1_actions Missing (Text (Some 2)).
Proof.
  apply (proj1 (paginate_default_params "localhost" "robot1" robot1_actions (Text None) (Text (Some 2)))).
  left. reflexivity.
Defined.

(** Away from the edges of [int] (both coordinates strictly between
    -2^63 and 2^63 - 1), a move in direction up, down, left or right
    changes exactly one coordinate by exactly 1 (up: Y+1, down: Y-1,
    left: X-1, right: X+1), keeps the other, appends the one entry
    "move" / "Moved <direction>" to the robot's log and changes nothing
    else; any other direction answers "Invalid direction" and leaves the
    store unchanged. *)
Theorem MoveRobot_unit_step (s : RobotStorage) (id d : string) (r : Robot) :
  robots s !! id = Some r ->
  -2^63 < X (Position' r) < 2^63 - 1 -> -2^63 < Y (Position' r) < 2^63 - 1 ->
  ((d = "up" \/ d = "down" \/ d = "left" \/ d = "right") ->
   exists p',
     MoveRobot id (Some (mkMoveRequest d)) s =
       (inr p', mkStorage (<[id := set_Actions (Actions r ++ [mkAction "move" ("Moved " +:+ d)])
                                               (set_Position p' r)]> (robots s))
                          (items s)) /\
     ((d = "up" /\ X p' = X (Position' r) /\ Y p' = Y (Position' r) + 1) \/
      (d = "down" /\ X p' = X (Position' r) /\ Y p' = Y (Position' r) - 1) \/
      (d = "left" /\ X p' = X (Position' r) - 1 /\ Y p' = Y (Position' r)) \/
      (d = "right" /\ X p' = X (Position' r) + 1 /\ Y p' = Y (Position' r)))) /\
  (~ (d = "up" \/ d = "down" \/ d = "left" \/ d = "right") ->
   MoveRobot id (Some (mkMoveRequest d)) s = (inl (BadRequest "Invalid direction"), s)).
Proof.
  intros Hr HX HY. split.
  - intros Hd. destruct Hd as [ -> | [ -> | [ -> | -> ] ] ];
      (eexists; split; [eapply (MoveRobot_ok s id _ r); [exact Hr | reflexivity] |]).
    + left. split; [reflexivity|]. split; [reflexivity|]. apply wrap64_small. lia.
    + right; left. split; [reflexivity|]. split; [reflexivity|]. apply wrap64_small. lia.
    + right; right; left. split; [reflexivity|]. split; [apply wrap64_small; lia | reflexivity].
    + right; right; right. split; [reflexivity|]. split; [apply wrap64_small; lia | reflexivity].
  - intros Hd. assert (Hc : move_case d = None).
    { unfold move_case.
      destruct (String.eqb_spec d "up"); [tauto|].
      destruct (String.eqb_spec d "down"); [tauto|].
      destruct (String.eqb_spec d "left"); [tauto|].
      destruct (String.eqb_spec d "right"); [tauto|].
      reflexivity. }
    cbv [MoveRobot bind GetRobot fail]. rewrite Hr. simpl. rewrite Hc. reflexivity.
Qed.

(** Seeded robot1 at (0, 0) moves up. *)
Lemma MoveRobot_unit_step_witness :
  exists p',
    MoveRobot "robot1" (Some (mkMoveRequest "up")) Initialize =
      (inr p', mkStorage (<[ "robot1" := set_Actions (robot1_actions ++ [mkAction "move" ("Moved " +:+ "up")])
                                           (set_Position p' (mkRobot (mkPosition 0 0) "north" 100 [] robot1_actions))]>
                           (robots Initialize)) (items Initialize)) /\
    ((("up" = "up") /\ X p' = 0 /\ Y p' = 0 + 1) \/
     (("up" = "down") /\ X p' = 0 /\ Y p' = 0 - 1) \/
     (("up" = "left") /\ X p' = 0 - 1 /\ Y p' = 0) \/
     (("up" = "right") /\ X p' = 0 + 1 /\ Y p' = 0)).
Proof.
  exact (proj1 (MoveRobot_unit_step Initialize "robot1" "up"
                  (mkRobot (mkPosition 0 0) "north" 100 [] robot1_actions) ltac:(reflexivity)
                  ltac:(simpl; lia) ltac:(simpl; lia))
               (or_introl eq_refl)).
Defined.
